(** * LRU_Cache: a shallow embedding of the header-only LRU cache and the
    properties its specification states about it.

    The class keeps a [std::list<Key>] ordered from most- to
    least-recently-used and a
    [std::unordered_map<Key, std::pair<Value, list::iterator>>].  Both live in
    one record here; member functions become computations in a small
    state-and-failure monad whose failure is the undefined behaviour of the
    C++ containers ([back()] or [pop_back()] on an empty list, erasing through
    an iterator that denotes no node, dereferencing [end()]). *)

From stdpp Require Import gmap list.
From Stdlib Require Import ZArith Lia.

Set Default Proof Using "Type".
Set Warnings "-clear-no-such-hyp".

(** ** Outcomes of a member function *)

Inductive undefined : Type :=
  | list_back_on_empty
  | list_pop_back_on_empty
  | list_erase_invalid_iterator
  | map_deref_end
  | map_deref_invalid.

Inductive result (A : Type) : Type :=
  | Ok (a : A)
  | Undefined (u : undefined)
  | OutOfFuel.
Arguments Ok {A} a.
Arguments Undefined {A} u.
Arguments OutOfFuel {A}.

(** A list iterator is the identity of the node it denotes.  Nodes are
    numbered in allocation order starting at 1; 0 is the singular
    (value-initialised) iterator, which denotes no node. *)
Definition node : Type := nat.
Definition singular : node := 0.

Section LRU.
Context {Key : Type} `{Countable Key}.
Context {Value : Type}.

(** Line 57 of the header builds a [std::pair<Key, list::iterator>] from the
    value and assigns it to a [std::pair<Value, list::iterator>]: the stored
    value is the inserted one converted to [Key] and back.  The two implicit
    conversions and [Value()] are what the template needs from its
    arguments. *)
Variable Key_from_Value : Value → Key.
Variable Value_from_Key : Key → Value.
Variable Value_default : Value.

Definition create_callback_type : Type := Key → Value.
Definition delete_callback_type : Type := Value → unit.

(** The callbacks act outside the cache; what the cache does to them is
    call them, and the calls are recorded in program order. *)
Inductive event : Type :=
  | create_call (k : Key)
  | delete_call (v : Value).

Record cache : Type := mk_cache {
  m_list : list (node * Key);
  m_map : gmap Key (Value * node);
  m_capacity : nat;
  m_create_callback : option create_callback_type;
  m_delete_callback : option delete_callback_type;
  next_node : node;
  calls : list event
}.

Definition set_list (l : list (node * Key)) (s : cache) : cache :=
  mk_cache l (m_map s) (m_capacity s) (m_create_callback s)
           (m_delete_callback s) (next_node s) (calls s).
Definition set_map (m : gmap Key (Value * node)) (s : cache) : cache :=
  mk_cache (m_list s) m (m_capacity s) (m_create_callback s)
           (m_delete_callback s) (next_node s) (calls s).
Definition set_capacity (c : nat) (s : cache) : cache :=
  mk_cache (m_list s) (m_map s) c (m_create_callback s)
           (m_delete_callback s) (next_node s) (calls s).
Definition set_create (f : option create_callback_type) (s : cache) : cache :=
  mk_cache (m_list s) (m_map s) (m_capacity s) f
           (m_delete_callback s) (next_node s) (calls s).
Definition set_delete (f : option delete_callback_type) (s : cache) : cache :=
  mk_cache (m_list s) (m_map s) (m_capacity s) (m_create_callback s)
           f (next_node s) (calls s).
Definition set_next (n : node) (s : cache) : cache :=
  mk_cache (m_list s) (m_map s) (m_capacity s) (m_create_callback s)
           (m_delete_callback s) n (calls s).
Definition record_call (e : event) (s : cache) : cache :=
  mk_cache (m_list s) (m_map s) (m_capacity s) (m_create_callback s)
           (m_delete_callback s) (next_node s) (calls s ++ [e]).

(** ** The monad of member functions *)

Definition M (A : Type) : Type := cache → result (A * cache).

Definition ret {A} (a : A) : M A := λ s, Ok (a, s).
Definition bind {A B} (c : M A) (k : A → M B) : M B :=
  λ s, match c s with
       | Ok (a, s') => k a s'
       | Undefined u => Undefined u
       | OutOfFuel => OutOfFuel
       end.
Definition read {A} (f : cache → A) : M A := λ s, Ok (f s, s).
Definition write (f : cache → cache) : M unit := λ s, Ok (tt, f s).

#[local] Instance M_ret : MRet M := @ret.
#[local] Instance M_bind : MBind M := λ A B k c, bind c k.

(** ** std::list<Key> *)

Fixpoint erase_node (it : node) (l : list (node * Key)) : option (list (node * Key)) :=
  match l with
  | [] => None
  | (n, k) :: l' =>
      if decide (n = it) then Some l' else cons (n, k) <$> erase_node it l'
  end.

Definition list_erase (it : node) : M unit :=
  λ s, match erase_node it (m_list s) with
       | Some l => Ok (tt, set_list l s)
       | None => Undefined list_erase_invalid_iterator
       end.

(** [push_front] followed by [begin()]: the iterator of the new node. *)
Definition list_push_front (k : Key) : M node :=
  λ s, Ok (next_node s,
           set_next (S (next_node s)) (set_list ((next_node s, k) :: m_list s) s)).

Definition list_back : M Key :=
  λ s, match last (m_list s) with
       | Some (_, k) => Ok (k, s)
       | None => Undefined list_back_on_empty
       end.

Definition list_pop_back : M unit :=
  λ s, match m_list s with
       | [] => Undefined list_pop_back_on_empty
       | _ :: _ => Ok (tt, set_list (removelast (m_list s)) s)
       end.

Definition list_size : M nat := read (λ s, length (m_list s)).

(** ** std::unordered_map<Key, std::pair<Value, list::iterator>> *)

(** A map iterator is the key of the element it denotes, [None] is [end()]. *)
Definition map_iterator : Type := option Key.

Definition map_find (key : Key) : M map_iterator :=
  read (λ s, match m_map s !! key with Some _ => Some key | None => None end).

Definition deref (it : map_iterator) : M (Key * (Value * node)) :=
  λ s, match it with
       | None => Undefined map_deref_end
       | Some k =>
           match m_map s !! k with
           | Some e => Ok ((k, e), s)
           | None => Undefined map_deref_invalid
           end
       end.

(** [m_map[key]]: the element, default-constructed first when absent. *)
Definition map_index (key : Key) : M (Value * node) :=
  λ s, match m_map s !! key with
       | Some e => Ok (e, s)
       | None => Ok ((Value_default, singular),
                     set_map (<[key := (Value_default, singular)]> (m_map s)) s)
       end.

Definition map_store (key : Key) (e : Value * node) : M unit :=
  write (λ s, set_map (<[key := e]> (m_map s)) s).

Definition map_remove (key : Key) : M unit :=
  write (λ s, set_map (delete key (m_map s)) s).

(** ** Member functions, in the order of the header *)

Definition LRU_Cache (size : nat) (creator : option create_callback_type)
    (deletor : option delete_callback_type) : cache :=
  mk_cache [] ∅ size creator deletor 1 [].

Definition empty : M bool := read (λ s, bool_decide (m_map s = ∅)).
Definition size : M nat := read (λ s, base.size (m_map s)).
Definition capacity : M nat := read m_capacity.

(** [if(m_delete_callback) m_delete_callback(v);] *)
Definition fire_delete (v : Value) : M unit :=
  λ s, match m_delete_callback s with
       | Some f => Ok (f v, record_call (delete_call v) s)
       | None => Ok (tt, s)
       end.

(** [m_create_callback ? m_create_callback(key) : Value()] *)
Definition make_value (key : Key) : M Value :=
  λ s, match m_create_callback s with
       | Some f => Ok (f key, record_call (create_call key) s)
       | None => Ok (Value_default, s)
       end.

Definition map_erase (pos : map_iterator) : M unit :=
  e ← deref pos;
  fire_delete (e.2.1);;
  map_remove e.1.

Definition erase_oldest : M unit :=
  key ← list_back;
  list_pop_back;;
  iter ← map_find key;
  map_erase iter.

Definition make_space : M unit :=
  n ← size;
  c ← capacity;
  if decide (n = c) then erase_oldest else ret tt.

(** The body of the do-while loop of [trim], one unit of fuel per round. *)
Fixpoint trim_loop (fuel : nat) : M unit :=
  match fuel with
  | O => λ _, OutOfFuel
  | S fuel' =>
      erase_oldest;;
      n ← list_size;
      c ← capacity;
      if decide (c < n) then trim_loop fuel' else ret tt
  end.

Definition trim : M bool :=
  n ← size;
  c ← capacity;
  if decide (n ≤ c) then ret false
  else
    len ← list_size;
    trim_loop (S len);;
    ret true.

Definition insert (key : Key) (val : Value) : M bool :=
  it ← map_find key;
  match it with
  | None =>
      make_space;;
      b ← list_push_front key;
      map_index key;;
      map_store key (Value_from_Key (Key_from_Value val), b);;
      ret true
  | Some _ => ret false
  end.

Definition touch_iter (iter : map_iterator) : M unit :=
  e ← deref iter;
  list_erase (e.2.2);;
  b ← list_push_front e.1;
  e' ← deref iter;
  map_store e'.1 (e'.2.1, b).

Definition touch (key : Key) : M bool :=
  iter ← map_find key;
  match iter with
  | Some _ => touch_iter iter;; ret true
  | None => ret false
  end.

Definition assign_iter (iter : map_iterator) (val : Value) : M unit :=
  e ← deref iter;
  fire_delete (e.2.1);;
  touch_iter iter;;
  e' ← deref iter;
  map_store e'.1 (val, e'.2.2).

Definition assign (key : Key) (value : Value) : M bool :=
  iter ← map_find key;
  match iter with
  | Some _ => assign_iter iter value;; ret true
  | None => ret false
  end.

Definition insert_or_assign (key : Key) (val : Value) : M unit :=
  iter ← map_find key;
  it2 ← map_find key;
  match it2 with
  | Some _ => assign_iter iter val
  | None => insert key val;; ret tt
  end.

Definition contains (key : Key) : M bool :=
  it ← map_find key;
  ret (match it with Some _ => true | None => false end).

Definition at_ (key : Key) : M (option Value) :=
  iter ← map_find key;
  match iter with
  | Some _ => e ← deref iter; ret (Some e.2.1)
  | None => ret None
  end.

Definition get (key : Key) : M Value :=
  iter ← map_find key;
  match iter with
  | Some _ =>
      touch key;;
      e ← deref iter;
      ret e.2.1
  | None =>
      v ← make_value key;
      insert key v;;
      e ← map_index key;
      ret e.1
  end.

Definition erase (key : Key) : M bool :=
  iter ← map_find key;
  match iter with
  | Some _ =>
      e ← deref iter;
      list_erase (e.2.2);;
      map_erase iter;;
      ret true
  | None => ret false
  end.

Definition clear : M unit :=
  orig_capacity ← capacity;
  write (set_capacity 0);;
  trim;;
  write (set_capacity orig_capacity).

Definition resize (newSize : nat) : M unit :=
  write (set_capacity newSize);;
  trim;;
  ret tt.

Definition setCreateCallback (callback : option create_callback_type) : M unit :=
  write (set_create callback).
Definition setDeleteCallback (callback : option delete_callback_type) : M unit :=
  write (set_delete callback).

(** The destructor visits every element of the map, in the map's order. *)
Fixpoint fire_all (vs : list Value) : M unit :=
  match vs with
  | [] => ret tt
  | v :: vs' => fire_delete v;; fire_all vs'
  end.

Definition destroy : M unit :=
  λ s, fire_all ((λ e, e.2.1) <$> map_to_list (m_map s)) s.

(** The initializer-list constructor. *)
Fixpoint load (il : list (Key * Value)) : M unit :=
  match il with
  | [] => ret tt
  | i :: il' => insert_or_assign i.1 i.2;; load il'
  end.

Definition LRU_Cache_il (il : list (Key * Value)) : result (unit * cache) :=
  load il (LRU_Cache (length il) None None).

(** ** Scripts of calls

    [op] has the members a client calls with a key, a size or a callback, and
    [run] a sequence of them.  The other public members that change the
    cache, [erase_oldest()] and the overloads of [touch] and [assign] that
    take a [map_iterator&], are added by [public_call] below; [empty],
    [size], [capacity] and the iterators only read. *)

Inductive op : Type :=
  | Insert (key : Key) (val : Value)
  | InsertOrAssign (key : Key) (val : Value)
  | Assign (key : Key) (val : Value)
  | Get (key : Key)
  | Touch (key : Key)
  | At (key : Key)
  | Contains (key : Key)
  | Erase (key : Key)
  | Resize (newSize : nat)
  | Clear
  | SetCreateCallback (callback : option create_callback_type)
  | SetDeleteCallback (callback : option delete_callback_type).

Inductive retval : Type :=
  | RVoid
  | RBool (b : bool)
  | RValue (v : Value)
  | ROptional (o : option Value).

Definition call (o : op) : M retval :=
  match o with
  | Insert k v => b ← insert k v; mret (RBool b)
  | InsertOrAssign k v => insert_or_assign k v;; mret RVoid
  | Assign k v => b ← assign k v; mret (RBool b)
  | Get k => v ← get k; mret (RValue v)
  | Touch k => b ← touch k; mret (RBool b)
  | At k => o ← at_ k; mret (ROptional o)
  | Contains k => b ← contains k; mret (RBool b)
  | Erase k => b ← erase k; mret (RBool b)
  | Resize n => resize n;; mret RVoid
  | Clear => clear;; mret RVoid
  | SetCreateCallback f => setCreateCallback f;; mret RVoid
  | SetDeleteCallback f => setDeleteCallback f;; mret RVoid
  end.

Fixpoint run (ops : list op) : M (list retval) :=
  match ops with
  | [] => mret []
  | o :: ops' => r ← call o; rs ← run ops'; mret (r :: rs)
  end.

(** ** Observations of a cache *)

(** The keys from most- to least-recently-used. *)
Definition recency (s : cache) : list Key := (m_list s).*2.

(** The stored value of every key. *)
Definition contents (s : cache) : gmap Key Value := fst <$> m_map s.

(** The arguments of the [on_delete] calls made so far, oldest first. *)
Definition deleted (s : cache) : list Value :=
  omap (λ e, match e with delete_call v => Some v | create_call _ => None end)
       (calls s).

(** The values stored under the keys [ks], in the order of [ks]. *)
Definition values_of (s : cache) (ks : list Key) : list Value :=
  omap (λ k, contents s !! k) ks.

(** ** The representation invariant

    Node identities are distinct, every node of the list is the one its
    key's map element refers to, the map has no further elements, and the
    allocator has handed out every node of the list. *)
Definition wf (s : cache) : Prop :=
  NoDup (m_list s).*1
  ∧ Forall (λ x, snd <$> m_map s !! x.2 = Some x.1) (m_list s)
  ∧ base.size (m_map s) = length (m_list s)
  ∧ Forall (λ x, x.1 < next_node s) (m_list s).

#[global] Instance wf_dec s : Decision (wf s).
Proof. unfold wf. apply _. Defined.

(** The same link between list and map, stated element-wise. *)
Definition linked (l : list (node * Key)) (m : gmap Key (Value * node))
    (nx : node) : Prop :=
  NoDup l.*1
  ∧ (∀ n k, (n, k) ∈ l ↔ ∃ v, m !! k = Some (v, n))
  ∧ (∀ n k, (n, k) ∈ l → n < nx).

(** ** What the specification expects to leave the cache

    The values whose time in the cache ends with the call [o] made in state
    [s], least recently used first: the overwritten value of an assignment,
    the evicted value of an insertion into a full cache, the erased value,
    and everything beyond the new capacity for [resize] and [clear]. *)
Definition evicted_by_insert (s : cache) : list Value :=
  if decide (length (recency s) = m_capacity s)
  then values_of s (option_list (last (recency s)))
  else [].

Definition leaving (o : op) (s : cache) : list Value :=
  match o with
  | Insert k _ | Get k =>
      match contents s !! k with
      | Some _ => []
      | None => evicted_by_insert s
      end
  | InsertOrAssign k _ =>
      match contents s !! k with
      | Some old => [old]
      | None => evicted_by_insert s
      end
  | Assign k _ | Erase k => option_list (contents s !! k)
  | Resize n => values_of s (reverse (drop n (recency s)))
  | Clear => values_of s (reverse (recency s))
  | Touch _ | At _ | Contains _
  | SetCreateCallback _ | SetDeleteCallback _ => []
  end.

(** The values that enter the cache with the call. *)
Definition entering (o : op) (s : cache) : nat :=
  match o with
  | Insert k _ | Get k => match contents s !! k with Some _ => 0 | None => 1 end
  | InsertOrAssign _ _ => 1
  | Assign k _ => match contents s !! k with Some _ => 1 | None => 0 end
  | _ => 0
  end.

(** The removals a whole script is expected to make while a deleter is
    configured. *)
Fixpoint removals (ops : list op) (s : cache) : nat :=
  match ops with
  | [] => 0
  | o :: ops' =>
      match m_delete_callback s with
      | Some _ => length (leaving o s)
      | None => 0
      end +
      match call o s with
      | Ok (_, s') => removals ops' s'
      | _ => 0
      end
  end.

(** Calls that only read or promote. *)
Definition reads_only (o : op) (s : cache) : Prop :=
  match o with
  | At _ | Contains _ | Touch _ => True
  | Get k => is_Some (contents s !! k)
  | _ => False
  end.

(** The values resident in the cache, in the order the destructor visits
    them. *)
Definition resident (s : cache) : list Value :=
  (λ e, e.2.1) <$> map_to_list (m_map s).

(** The trace after [on_delete] has been offered the values [vs]. *)
Definition fired (s : cache) (vs : list Value) : list event :=
  calls s ++ match m_delete_callback s with
             | Some _ => delete_call <$> vs
             | None => []
             end.

(** The cache once [trim] has evicted everything beyond the capacity. *)
Definition trimmed (s : cache) : cache :=
  mk_cache (take (m_capacity s) (m_list s))
           (foldr delete (m_map s) (drop (m_capacity s) (recency s)))
           (m_capacity s) (m_create_callback s) (m_delete_callback s)
           (next_node s)
           (fired s (values_of s (reverse (drop (m_capacity s) (recency s))))).

(** The value [get] inserts for a missing key. *)
Definition made (s : cache) (key : Key) : Value :=
  match m_create_callback s with
  | Some f => f key
  | None => Value_default
  end.

Definition set_calls (tr : list event) (s : cache) : cache :=
  mk_cache (m_list s) (m_map s) (m_capacity s) (m_create_callback s)
           (m_delete_callback s) (next_node s) tr.

(** ** The invariant of the public interface and the effect of one call *)

Definition inv (s : cache) : Prop :=
  wf s ∧ base.size (m_map s) ≤ m_capacity s.

(** What one completed call [o] from [s] to [s'] guarantees: the
    representation stays well formed, the capacity bound is kept, [on_delete]
    has been called on exactly the values expected to leave, and the entries
    are accounted for. *)
Definition step_ok (o : op) (s s' : cache) : Prop :=
  wf s'
  ∧ (base.size (m_map s) ≤ m_capacity s → base.size (m_map s') ≤ m_capacity s')
  ∧ deleted s' = deleted s ++ match m_delete_callback s with
                              | Some _ => leaving o s
                              | None => []
                              end
  ∧ base.size (m_map s') + length (leaving o s) = base.size (m_map s) + entering o s
  ∧ m_capacity s' = match o with Resize n => n | _ => m_capacity s end
  ∧ m_delete_callback s' = match o with
                           | SetDeleteCallback f => f
                           | _ => m_delete_callback s
                           end.

(** Calls that change neither the capacity nor the delete callback. *)
Definition plain (o : op) : Prop :=
  match o with
  | Resize _ | SetDeleteCallback _ => False
  | _ => True
  end.

(** Scripts that leave the delete callback alone. *)
Definition keeps_deleter (o : op) : Prop :=
  match o with
  | SetDeleteCallback _ => False
  | _ => True
  end.

(** The values that enter the cache over a whole script. *)
Fixpoint entered (ops : list op) (s : cache) : nat :=
  match ops with
  | [] => 0
  | o :: ops' =>
      entering o s +
      match call o s with
      | Ok (_, s') => entered ops' s'
      | _ => 0
      end
  end.

(** Capacity and callbacks are those of [s]. *)
Definition same_setup (s s' : cache) : Prop :=
  m_capacity s' = m_capacity s
  ∧ m_create_callback s' = m_create_callback s
  ∧ m_delete_callback s' = m_delete_callback s.

(** All a client can tell about a cache: recency order, stored values,
    capacity, callbacks and the callback calls made. *)
Definition observable (s : cache) :=
  (recency s, contents s, m_capacity s, m_create_callback s,
   m_delete_callback s, calls s).

(** A script of plain insertions. *)
Definition inserts (kvs : list (Key * Value)) : list op :=
  (λ kv, Insert kv.1 kv.2) <$> kvs.

(** Scripts that never set the capacity to zero. *)
Definition keeps_room (o : op) : Prop :=
  match o with
  | Resize n => 0 < n
  | _ => True
  end.

(** ** Iteration

    [begin()] .. [end()] walk the unordered map: every element once, in
    the map's own order. *)
Definition range (s : cache) : list (Key * (Value * node)) :=
  map_to_list (m_map s).

(** The arguments of the [on_create] calls made so far, oldest first. *)
Definition created (s : cache) : list Key :=
  omap (λ e, match e with create_call k => Some k | delete_call _ => None end)
       (calls s).

(** ** The cache as one recency-ordered list and one key-value map

    What each call of [op] does to the two observations [recency] and
    [contents], written without nodes or iterators. *)
Definition promote (k : Key) (r : list Key) : list Key :=
  k :: filter (λ k', k' ≠ k) r.

Definition model_insert (cap : nat) (k : Key) (v : Value)
    (r : list Key) (c : gmap Key Value) : list Key * gmap Key Value :=
  if decide (length r = cap)
  then (k :: removelast r, <[k := v]> (foldr delete c (option_list (last r))))
  else (k :: r, <[k := v]> c).

Definition model_step (o : op) (s : cache) : list Key * gmap Key Value :=
  let r := recency s in
  let c := contents s in
  match o with
  | Insert k v =>
      match c !! k with
      | Some _ => (r, c)
      | None => model_insert (m_capacity s) k (Value_from_Key (Key_from_Value v)) r c
      end
  | InsertOrAssign k v =>
      match c !! k with
      | Some _ => (promote k r, <[k := v]> c)
      | None => model_insert (m_capacity s) k (Value_from_Key (Key_from_Value v)) r c
      end
  | Assign k v =>
      match c !! k with
      | Some _ => (promote k r, <[k := v]> c)
      | None => (r, c)
      end
  | Get k =>
      match c !! k with
      | Some _ => (promote k r, c)
      | None =>
          model_insert (m_capacity s) k
            (Value_from_Key (Key_from_Value (made s k))) r c
      end
  | Touch k =>
      match c !! k with
      | Some _ => (promote k r, c)
      | None => (r, c)
      end
  | Erase k => (filter (λ k', k' ≠ k) r, delete k c)
  | Resize n => (take n r, foldr delete c (drop n r))
  | Clear => ([], ∅)
  | At _ | Contains _ | SetCreateCallback _ | SetDeleteCallback _ => (r, c)
  end.

Definition model_ret (o : op) (s : cache) : retval :=
  let c := contents s in
  match o with
  | Insert k _ => RBool (bool_decide (c !! k = None))
  | Assign k _ | Touch k | Erase k | Contains k =>
      RBool (bool_decide (is_Some (c !! k)))
  | At k => ROptional (c !! k)
  | Get k =>
      RValue (match c !! k with
              | Some v => v
              | None => Value_from_Key (Key_from_Value (made s k))
              end)
  | InsertOrAssign _ _ | Resize _ | Clear
  | SetCreateCallback _ | SetDeleteCallback _ => RVoid
  end.

(** The [on_create] calls a call makes: one, for [get] of a missing key
    while a creator is configured. *)
Definition model_created (o : op) (s : cache) : list Key :=
  match o with
  | Get k =>
      match contents s !! k, m_create_callback s with
      | None, Some _ => [k]
      | _, _ => []
      end
  | _ => []
  end.

(** The key a call is about. *)
Definition target (o : op) : option Key :=
  match o with
  | Insert k _ | InsertOrAssign k _ | Assign k _
  | Get k | Touch k | At k | Contains k | Erase k => Some k
  | Resize _ | Clear | SetCreateCallback _ | SetDeleteCallback _ => None
  end.

(** Calls that store a new entry in state [s]. *)
Definition stores_new (o : op) (s : cache) : Prop :=
  match o with
  | Insert k _ | InsertOrAssign k _ | Get k => contents s !! k = None
  | _ => False
  end.

(** ** Every public member that changes the cache

    Besides the calls of [op] the class exposes [erase_oldest()] and the
    overloads of [touch] and [assign] that take a [map_iterator&]; with
    them [public_call] has every public member but those that only read
    without a key ([empty], [size], [capacity] and the iterators) and the
    constructors and the destructor ([LRU_Cache], [LRU_Cache_il],
    [destroy]).  An
    iterator argument is given as what it denotes when the call is made:
    [Some k] the element of key [k], [None] the position [end()]; [Some k]
    in a map that has no element of key [k] is an iterator whose element is
    gone. *)
Inductive public_call : Type :=
  | ByKey (o : op)
  | EraseOldest
  | TouchIter (iter : map_iterator)
  | AssignIter (iter : map_iterator) (val : Value).

Definition invoke (p : public_call) : M retval :=
  match p with
  | ByKey o => call o
  | EraseOldest => erase_oldest;; mret RVoid
  | TouchIter iter => touch_iter iter;; mret RVoid
  | AssignIter iter val => assign_iter iter val;; mret RVoid
  end.

(** The list-and-map model of the three further members. *)
Definition public_model_step (p : public_call) (s : cache)
    : list Key * gmap Key Value :=
  let r := recency s in
  let c := contents s in
  match p with
  | ByKey o => model_step o s
  | EraseOldest =>
      (removelast r, match last r with Some k => delete k c | None => c end)
  | TouchIter (Some k) => (promote k r, c)
  | AssignIter (Some k) v => (promote k r, <[k := v]> c)
  | TouchIter None | AssignIter None _ => (r, c)
  end.

Definition public_model_ret (p : public_call) (s : cache) : retval :=
  match p with
  | ByKey o => model_ret o s
  | EraseOldest | TouchIter _ | AssignIter _ _ => RVoid
  end.

(** The calls whose behaviour is undefined in state [s], with the operation
    that is undefined: a store of a new entry at capacity zero and
    [erase_oldest] on an empty cache read the back of the empty list, the
    iterator overloads dereference [end()] or an iterator whose element is
    gone. *)
Definition misuse (p : public_call) (s : cache) (u : undefined) : Prop :=
  match p with
  | ByKey o =>
      u = list_back_on_empty ∧ stores_new o s
      ∧ m_capacity s = 0 ∧ recency s = []
  | EraseOldest => u = list_back_on_empty ∧ recency s = []
  | TouchIter iter | AssignIter iter _ =>
      match iter with
      | None => u = map_deref_end
      | Some k => u = map_deref_invalid ∧ contents s !! k = None
      end
  end.

(** ** The states a call passes through

    A member function runs statement by statement.  [T] is [M] together
    with the states the cache has been left in by the statements run so far,
    oldest first; [step] runs one statement and records the state after
    it. *)
Definition T (A : Type) : Type := cache → list cache * result (A * cache).

Definition retT {A} (a : A) : T A := λ s, ([], Ok (a, s)).
Definition bindT {A B} (c : T A) (k : A → T B) : T B :=
  λ s, match c s with
       | (tr, Ok (a, s')) => (tr ++ (k a s').1, (k a s').2)
       | (tr, Undefined u) => (tr, Undefined u)
       | (tr, OutOfFuel) => (tr, OutOfFuel)
       end.
Definition step {A} (c : M A) : T A :=
  λ s, match c s with
       | Ok (a, s') => ([s'], Ok (a, s'))
       | Undefined u => ([], Undefined u)
       | OutOfFuel => ([], OutOfFuel)
       end.

#[local] Instance T_ret : MRet T := @retT.
#[local] Instance T_bind : MBind T := λ A B k c, bindT c k.

(** The member functions once more, statement by statement as in the
    header, each container operation and each write of a member variable
    being one [step]. *)
Definition map_erase_steps (pos : map_iterator) : T unit :=
  e ← step (deref pos);
  step (fire_delete (e.2.1));;
  step (map_remove e.1).

Definition erase_oldest_steps : T unit :=
  key ← step list_back;
  step list_pop_back;;
  iter ← step (map_find key);
  map_erase_steps iter.

Definition make_space_steps : T unit :=
  n ← step size;
  c ← step capacity;
  if decide (n = c) then erase_oldest_steps else retT tt.

Fixpoint trim_loop_steps (fuel : nat) : T unit :=
  match fuel with
  | O => λ _, ([], OutOfFuel)
  | S fuel' =>
      erase_oldest_steps;;
      n ← step list_size;
      c ← step capacity;
      if decide (c < n) then trim_loop_steps fuel' else retT tt
  end.

Definition trim_steps : T bool :=
  n ← step size;
  c ← step capacity;
  if decide (n ≤ c) then retT false
  else
    len ← step list_size;
    trim_loop_steps (S len);;
    retT true.

Definition insert_steps (key : Key) (val : Value) : T bool :=
  it ← step (map_find key);
  match it with
  | None =>
      make_space_steps;;
      b ← step (list_push_front key);
      step (map_index key);;
      step (map_store key (Value_from_Key (Key_from_Value val), b));;
      retT true
  | Some _ => retT false
  end.

Definition touch_iter_steps (iter : map_iterator) : T unit :=
  e ← step (deref iter);
  step (list_erase (e.2.2));;
  b ← step (list_push_front e.1);
  e' ← step (deref iter);
  step (map_store e'.1 (e'.2.1, b)).

Definition touch_steps (key : Key) : T bool :=
  iter ← step (map_find key);
  match iter with
  | Some _ => touch_iter_steps iter;; retT true
  | None => retT false
  end.

Definition assign_iter_steps (iter : map_iterator) (val : Value) : T unit :=
  e ← step (deref iter);
  step (fire_delete (e.2.1));;
  touch_iter_steps iter;;
  e' ← step (deref iter);
  step (map_store e'.1 (val, e'.2.2)).

Definition assign_steps (key : Key) (value : Value) : T bool :=
  iter ← step (map_find key);
  match iter with
  | Some _ => assign_iter_steps iter value;; retT true
  | None => retT false
  end.

Definition insert_or_assign_steps (key : Key) (val : Value) : T unit :=
  iter ← step (map_find key);
  it2 ← step (map_find key);
  match it2 with
  | Some _ => assign_iter_steps iter val
  | None => insert_steps key val;; retT tt
  end.

Definition contains_steps (key : Key) : T bool :=
  it ← step (map_find key);
  retT (match it with Some _ => true | None => false end).

Definition at_steps (key : Key) : T (option Value) :=
  iter ← step (map_find key);
  match iter with
  | Some _ => e ← step (deref iter); retT (Some e.2.1)
  | None => retT None
  end.

Definition get_steps (key : Key) : T Value :=
  iter ← step (map_find key);
  match iter with
  | Some _ =>
      touch_steps key;;
      e ← step (deref iter);
      retT e.2.1
  | None =>
      v ← step (make_value key);
      insert_steps key v;;
      e ← step (map_index key);
      retT e.1
  end.

Definition erase_steps (key : Key) : T bool :=
  iter ← step (map_find key);
  match iter with
  | Some _ =>
      e ← step (deref iter);
      step (list_erase (e.2.2));;
      map_erase_steps iter;;
      retT true
  | None => retT false
  end.

Definition clear_steps : T unit :=
  orig_capacity ← step capacity;
  step (write (set_capacity 0));;
  trim_steps;;
  step (write (set_capacity orig_capacity)).

Definition resize_steps (newSize : nat) : T unit :=
  step (write (set_capacity newSize));;
  trim_steps;;
  retT tt.

Definition call_steps (o : op) : T retval :=
  match o with
  | Insert k v => b ← insert_steps k v; retT (RBool b)
  | InsertOrAssign k v => insert_or_assign_steps k v;; retT RVoid
  | Assign k v => b ← assign_steps k v; retT (RBool b)
  | Get k => v ← get_steps k; retT (RValue v)
  | Touch k => b ← touch_steps k; retT (RBool b)
  | At k => o ← at_steps k; retT (ROptional o)
  | Contains k => b ← contains_steps k; retT (RBool b)
  | Erase k => b ← erase_steps k; retT (RBool b)
  | Resize n => resize_steps n;; retT RVoid
  | Clear => clear_steps;; retT RVoid
  | SetCreateCallback f => step (setCreateCallback f);; retT RVoid
  | SetDeleteCallback f => step (setDeleteCallback f);; retT RVoid
  end.

(** The states the cache is in, one after the other, while the call [o]
    made in state [s] runs. *)
Definition during (o : op) (s : cache) : list cache := (call_steps o s).1.

(** [size() <= capacity()], and its failure. *)
Definition within (t : cache) : Prop := base.size (m_map t) ≤ m_capacity t.
Definition exceeded (t : cache) : Prop := m_capacity t < base.size (m_map t).

(** [t] has the capacity of [s] and no more entries. *)
Definition no_larger (s t : cache) : Prop :=
  m_capacity t = m_capacity s ∧ base.size (m_map t) ≤ base.size (m_map s).

(** Every state the traced [c] passes through from [s] satisfies [I], and
    if it completes, its value and final state satisfy [Q]. *)
Definition traced {A} (I : cache → Prop) (c : T A) (s : cache)
    (Q : A → cache → Prop) : Prop :=
  Forall I (c s).1 ∧ match (c s).2 with Ok (a, s') => Q a s' | _ => True end.

(** The calls the specification names insertions. *)
Definition insertion (o : op) : Prop :=
  match o with
  | Insert _ _ | InsertOrAssign _ _ | Get _ => True
  | _ => False
  end.

(** The capacity bound as the specification words it: a state inside a call
    exceeds the capacity only if the call is an insertion. *)
Definition exceeded_only_inside_insertion (o : op) (s : cache) : Prop :=
  ∀ t, t ∈ during o s → exceeded t → insertion o.

(** When the capacity is exceeded inside the call [o] made in state [s]:
    [resize] and [clear] write [m_capacity] before they trim. *)
Definition overshoots (o : op) (s : cache) : Prop :=
  match o with
  | Resize n => n < base.size (m_map s)
  | Clear => 0 < base.size (m_map s)
  | _ => False
  end.

End LRU.

Arguments values_of : simpl never.

(** * Proofs *)

Ltac unfold_M :=
  unfold mbind, mret, M_bind, M_ret, bind, ret, read, write.

(** Facts that do not involve the conversions between [Key] and [Value]. *)

Section Structure.
Context {Key : Type} `{Countable Key}.
Context {Value : Type}.
Implicit Types (s : cache (Key:=Key) (Value:=Value)).
Implicit Types (l : list (node * Key)) (m : gmap Key (Value * node)).
Implicit Types (k : Key) (v : Value) (ks : list Key) (vs : list Value).
Implicit Types (o : op (Key:=Key) (Value:=Value)).
Implicit Types (cr : option (@create_callback_type Key Value)).
Implicit Types (dl : option (@delete_callback_type Value)).

(** ** The list primitives *)

Lemma filter_all {A} (P : A → Prop) `{!∀ x, Decision (P x)} (l : list A) :
  (∀ x, x ∈ l → P x) → filter P l = l.
Proof.
  induction l as [|x l IH]; intros HP; [done|].
  rewrite filter_cons_True by (apply HP; left).
  f_equal. apply IH. intros y Hy. apply HP. by right.
Qed.

Lemma erase_node_filter (l : list (node * Key)) (it : node) :
  NoDup l.*1 → it ∈ l.*1 →
  erase_node it l = Some (filter (λ x, x.1 ≠ it) l).
Proof.
  induction l as [|[n k] l IH]; simpl; intros Hnd Hin.
  - by apply elem_of_nil in Hin.
  - apply NoDup_cons in Hnd as [Hn Hnd]. destruct (decide (n = it)) as [->|Hne].
    + rewrite filter_cons_False; [|simpl; tauto]. f_equal.
      symmetry. apply filter_all. intros [n' k'] Hx. simpl. intros ->.
      apply Hn. apply list_elem_of_fmap. by exists (it, k').
    + rewrite filter_cons_True by done. apply elem_of_cons in Hin as [?|Hin]; [congruence|].
      by rewrite IH.
Qed.

Lemma removelast_snoc {A} (l : list A) (x : A) : removelast (l ++ [x]) = l.
Proof. apply removelast_last. Qed.

Lemma removelast_take {A} (l : list A) :
  removelast l = take (length l - 1) l.
Proof.
  destruct (decide (l = [])) as [->|Hne]; [done|].
  apply last_is_Some in Hne as [x Hx]. apply last_Some in Hx as [l' ->].
  rewrite removelast_snoc, length_app. simpl.
  replace (length l' + 1 - 1) with (length l') by lia.
  by rewrite take_app_length.
Qed.

(** ** The link between the list and the map *)

Lemma keys_NoDup (l : list (node * Key)) (m : gmap Key (Value * node)) :
  NoDup l.*1 →
  (∀ n k, (n, k) ∈ l → ∃ v, m !! k = Some (v, n)) →
  NoDup l.*2.
Proof.
  intros Hnd Hlm. apply (NoDup_fmap_2_strong snd); [|by eapply NoDup_fmap_1].
  intros [n1 k1] [n2 k2] H1 H2; simpl; intros <-.
  destruct (Hlm _ _ H1) as [v1 E1], (Hlm _ _ H2) as [v2 E2]. congruence.
Qed.

Lemma node_key_unique (l : list (node * Key)) n k1 k2 :
  NoDup l.*1 → (n, k1) ∈ l → (n, k2) ∈ l → k1 = k2.
Proof.
  intros Hnd [i1 H1]%list_elem_of_lookup [i2 H2]%list_elem_of_lookup.
  assert (i1 = i2) as ->; [|congruence].
  eapply NoDup_lookup; [exact Hnd|by rewrite list_lookup_fmap, H1|by rewrite list_lookup_fmap, H2].
Qed.

Lemma linked_NoDup_keys l m nx : linked l m nx → NoDup l.*2.
Proof. intros (Hnd & Hlm & _). eapply keys_NoDup; [done|]. intros. by apply Hlm. Qed.

Lemma linked_dom l m nx : linked l m nx → dom m = list_to_set l.*2.
Proof.
  intros (_ & Hlm & _). apply set_eq. intros k.
  rewrite elem_of_dom, elem_of_list_to_set, list_elem_of_fmap. split.
  - intros [[v n] Hk]. exists (n, k). split; [done|]. apply Hlm. eauto.
  - intros ([n k'] & -> & Hin). apply Hlm in Hin as [v Hv]. by eexists.
Qed.

Lemma linked_size l m nx : linked l m nx → base.size m = length l.
Proof.
  intros Hl. rewrite <-size_dom, (linked_dom _ _ _ Hl).
  rewrite size_list_to_set by eauto using linked_NoDup_keys.
  by rewrite length_fmap.
Qed.

Lemma wf_linked s : wf s ↔ linked (m_list s) (m_map s) (next_node s).
Proof.
  split.
  - intros (Hnd & Hlm & Hsz & Hnx).
    rewrite Forall_forall in Hlm. rewrite Forall_forall in Hnx.
    assert (Hlm' : ∀ n k, (n, k) ∈ m_list s → ∃ v, m_map s !! k = Some (v, n)).
    { intros n k Hin. specialize (Hlm _ Hin). simpl in Hlm.
      destruct (m_map s !! k) as [[v n']|]; simplify_eq/=. eauto. }
    split_and!; [done| |by intros n k ?%Hnx].
    intros n k. split; [apply Hlm'|]. intros [v Hv].
    assert (Hdom : list_to_set (m_list s).*2 = dom (m_map s)).
    { apply set_subseteq_size_eq.
      - intros k' ([n' k''] & -> & Hin')%elem_of_list_to_set%list_elem_of_fmap.
        apply elem_of_dom. simpl. destruct (Hlm' _ _ Hin') as [? ->]. eauto.
      - rewrite size_dom, size_list_to_set by eauto using keys_NoDup.
        rewrite length_fmap. lia. }
    assert (Hk : k ∈ (m_list s).*2).
    { apply (elem_of_list_to_set (C:=gset Key)). rewrite Hdom.
      apply elem_of_dom. eauto. }
    apply list_elem_of_fmap in Hk as ([n' k'] & -> & Hin).
    destruct (Hlm' _ _ Hin) as [v' Hv']. simpl in *. congruence.
  - intros Hl. pose proof (linked_size _ _ _ Hl) as Hsz.
    destruct Hl as (Hnd & Hlm & Hnx).
    split_and!; [done| |done|].
    + apply Forall_forall. intros [n k] [v Hv]%Hlm. simpl. by rewrite Hv.
    + apply Forall_forall. intros [n k] ?%Hnx. done.
Qed.

Lemma linked_nil nx : linked (Key:=Key) (Value:=Value) [] ∅ nx.
Proof.
  split_and!; [constructor| |by intros ?? ?%elem_of_nil].
  intros n k. split; [by intros ?%elem_of_nil|]. intros [v Hv]. by rewrite lookup_empty in Hv.
Qed.

Lemma linked_push l m nx k v :
  linked l m nx → m !! k = None →
  linked ((nx, k) :: l) (<[k := (v, nx)]> m) (S nx).
Proof.
  intros (Hnd & Hlm & Hnx) Hk. split_and!.
  - simpl. apply NoDup_cons. split; [|done].
    intros ([n' k'] & Heq & Hin)%list_elem_of_fmap. apply Hnx in Hin. simpl in *. lia.
  - intros n k'. rewrite elem_of_cons, Hlm. destruct (decide (k' = k)) as [->|Hne].
    + rewrite lookup_insert_eq, Hk. naive_solver.
    + rewrite lookup_insert_ne by done. naive_solver.
  - intros n k' [?|?%Hnx]%elem_of_cons; simplify_eq; lia.
Qed.

Lemma linked_remove l m nx k v n :
  linked l m nx → m !! k = Some (v, n) →
  linked (filter (λ x, x.1 ≠ n) l) (delete k m) nx.
Proof.
  intros (Hnd & Hlm & Hnx) Hk. split_and!.
  - apply (NoDup_fmap_2_strong fst).
    + intros [n1 k1] [n2 k2] [_ H1]%list_elem_of_filter [_ H2]%list_elem_of_filter; simpl.
      intros <-. f_equal. eauto using node_key_unique.
    + apply NoDup_filter. by eapply NoDup_fmap_1.
  - intros n' k'. rewrite list_elem_of_filter, Hlm. simpl.
    destruct (decide (k' = k)) as [->|Hne].
    + rewrite lookup_delete_eq, Hk. naive_solver.
    + rewrite lookup_delete_ne by done. split; [naive_solver|].
      intros [v' Hv']. split; [|eauto]. intros ->.
      assert (Hin1 : (n, k') ∈ l) by (apply Hlm; eauto).
      assert (Hin2 : (n, k) ∈ l) by (apply Hlm; eauto).
      apply Hne. eauto using node_key_unique.
  - intros n' k' [_ ?]%list_elem_of_filter. eauto.
Qed.

Lemma linked_filter_keys l m nx k v n :
  linked l m nx → m !! k = Some (v, n) →
  (filter (λ x, x.1 ≠ n) l).*2 = filter (λ k', k' ≠ k) l.*2.
Proof.
  intros (Hnd & Hlm & Hnx) Hk.
  assert (Hiff : ∀ x, x ∈ l → x.1 ≠ n ↔ x.2 ≠ k).
  { intros [n' k'] Hin. simpl. pose proof Hin as [v' Hv']%Hlm. split.
    - intros Hn ->. congruence.
    - intros Hk' ->. assert (Hin1 : (n, k) ∈ l) by (apply Hlm; eauto).
      apply Hk'. eauto using node_key_unique. }
  clear Hnd Hlm Hnx Hk. induction l as [|x l IH]; [done|].
  rewrite fmap_cons, !filter_cons.
  assert (IH' : (filter (λ x, x.1 ≠ n) l).*2 = filter (λ k', k' ≠ k) l.*2).
  { apply IH. intros y Hy. apply Hiff. by right. }
  assert (x.1 ≠ n ↔ x.2 ≠ k) by (apply Hiff; left).
  repeat case_decide; try tauto; rewrite ?fmap_cons; by f_equal.
Qed.

(** ** What the member functions compute *)

Lemma fire_delete_eq v s :
  fire_delete v s =
  Ok (tt, mk_cache (m_list s) (m_map s) (m_capacity s) (m_create_callback s)
            (m_delete_callback s) (next_node s) (fired s [v])).
Proof.
  unfold fire_delete, fired, record_call. destruct s as [l m c cr [f|] nx tr]; simpl.
  - by destruct (f v).
  - by rewrite app_nil_r.
Qed.

Lemma touch_iter_eq s k v n :
  NoDup (m_list s).*1 → n ∈ (m_list s).*1 → m_map s !! k = Some (v, n) →
  touch_iter (Some k) s =
  Ok (tt, mk_cache ((next_node s, k) :: filter (λ x, x.1 ≠ n) (m_list s))
            (<[k := (v, next_node s)]> (m_map s)) (m_capacity s)
            (m_create_callback s) (m_delete_callback s) (S (next_node s)) (calls s)).
Proof.
  intros Hnd Hn Hk. unfold touch_iter, deref, list_erase, list_push_front, map_store.
  unfold_M. rewrite Hk. simpl. rewrite (erase_node_filter _ _ Hnd Hn). simpl.
  by rewrite Hk.
Qed.

Lemma touch_present s k v n :
  NoDup (m_list s).*1 → n ∈ (m_list s).*1 → m_map s !! k = Some (v, n) →
  touch k s =
  Ok (true, mk_cache ((next_node s, k) :: filter (λ x, x.1 ≠ n) (m_list s))
            (<[k := (v, next_node s)]> (m_map s)) (m_capacity s)
            (m_create_callback s) (m_delete_callback s) (S (next_node s)) (calls s)).
Proof.
  intros Hnd Hn Hk. unfold touch, map_find. unfold_M. rewrite Hk.
  fold (touch_iter (Some k) s). by rewrite (touch_iter_eq _ _ _ _ Hnd Hn Hk).
Qed.

Lemma touch_absent s k : m_map s !! k = None → touch k s = Ok (false, s).
Proof. intros Hk. unfold touch, map_find. unfold_M. by rewrite Hk. Qed.

Lemma map_erase_eq s k v n :
  m_map s !! k = Some (v, n) →
  map_erase (Some k) s =
  Ok (tt, mk_cache (m_list s) (delete k (m_map s)) (m_capacity s)
            (m_create_callback s) (m_delete_callback s) (next_node s)
            (fired s [v])).
Proof.
  intros Hk. unfold map_erase, deref, map_remove. unfold_M. rewrite Hk. simpl.
  by rewrite fire_delete_eq.
Qed.

Lemma list_back_eq s l n k :
  m_list s = l ++ [(n, k)] → list_back s = Ok (k, s).
Proof. intros Hl. unfold list_back. by rewrite Hl, last_snoc. Qed.

Lemma list_pop_back_eq s l x :
  m_list s = l ++ [x] → list_pop_back s = Ok (tt, set_list l s).
Proof.
  intros Hl. unfold list_pop_back. rewrite Hl, removelast_snoc.
  by destruct l.
Qed.

Lemma erase_oldest_eq s l n k v n' :
  m_list s = l ++ [(n, k)] → m_map s !! k = Some (v, n') →
  erase_oldest s =
  Ok (tt, mk_cache l (delete k (m_map s)) (m_capacity s)
            (m_create_callback s) (m_delete_callback s) (next_node s)
            (fired s [v])).
Proof.
  intros Hl Hk. unfold erase_oldest, map_find. unfold_M.
  rewrite (list_back_eq _ _ _ _ Hl), (list_pop_back_eq _ _ _ Hl). simpl.
  rewrite Hk. by erewrite map_erase_eq.
Qed.

Lemma erase_oldest_empty s :
  m_list s = [] → erase_oldest s = Undefined list_back_on_empty.
Proof.
  intros Hl. unfold erase_oldest, list_back. unfold_M. by rewrite Hl.
Qed.

Lemma assign_iter_eq s k v n val :
  NoDup (m_list s).*1 → n ∈ (m_list s).*1 → m_map s !! k = Some (v, n) →
  assign_iter (Some k) val s =
  Ok (tt, mk_cache ((next_node s, k) :: filter (λ x, x.1 ≠ n) (m_list s))
            (<[k := (val, next_node s)]> (m_map s)) (m_capacity s)
            (m_create_callback s) (m_delete_callback s) (S (next_node s))
            (fired s [v])).
Proof.
  intros Hnd Hn Hk. unfold assign_iter. unfold_M.
  unfold deref at 1. rewrite Hk. simpl. rewrite fire_delete_eq.
  erewrite touch_iter_eq by done. unfold deref, map_store. unfold_M. simpl.
  rewrite lookup_insert_eq. simpl. by rewrite insert_insert_eq.
Qed.

Lemma assign_present s k v n val :
  NoDup (m_list s).*1 → n ∈ (m_list s).*1 → m_map s !! k = Some (v, n) →
  assign k val s =
  Ok (true, mk_cache ((next_node s, k) :: filter (λ x, x.1 ≠ n) (m_list s))
            (<[k := (val, next_node s)]> (m_map s)) (m_capacity s)
            (m_create_callback s) (m_delete_callback s) (S (next_node s))
            (fired s [v])).
Proof.
  intros Hnd Hn Hk. unfold assign, map_find. unfold_M. rewrite Hk.
  by erewrite assign_iter_eq.
Qed.

Lemma assign_absent s k val : m_map s !! k = None → assign k val s = Ok (false, s).
Proof. intros Hk. unfold assign, map_find. unfold_M. by rewrite Hk. Qed.

Lemma erase_present s k v n :
  NoDup (m_list s).*1 → n ∈ (m_list s).*1 → m_map s !! k = Some (v, n) →
  erase k s =
  Ok (true, mk_cache (filter (λ x, x.1 ≠ n) (m_list s)) (delete k (m_map s))
              (m_capacity s) (m_create_callback s) (m_delete_callback s)
              (next_node s) (fired s [v])).
Proof.
  intros Hnd Hn Hk. unfold erase, map_find, deref, list_erase. unfold_M.
  rewrite Hk. simpl. rewrite Hk. simpl.
  rewrite (erase_node_filter _ _ Hnd Hn).
  by erewrite map_erase_eq.
Qed.

Lemma erase_absent s k : m_map s !! k = None → erase k s = Ok (false, s).
Proof. intros Hk. unfold erase, map_find. unfold_M. by rewrite Hk. Qed.

Lemma contains_eq s k :
  contains k s = Ok (bool_decide (is_Some (m_map s !! k)), s).
Proof.
  unfold contains, map_find. unfold_M. simpl.
  by destruct (m_map s !! k).
Qed.

Lemma at_eq s k : at_ k s = Ok (contents s !! k, s).
Proof.
  unfold at_, map_find, deref, contents. unfold_M. rewrite lookup_fmap.
  destruct (m_map s !! k) as [[v n]|] eqn:E; simpl; by rewrite ?E.
Qed.

(** ** The eviction loop *)

Lemma filter_node_snoc (l : list (node * Key)) n k :
  NoDup (l ++ [(n, k)]).*1 → filter (λ x, x.1 ≠ n) (l ++ [(n, k)]) = l.
Proof.
  rewrite fmap_app. intros (_ & Hn & _)%NoDup_app.
  rewrite filter_app, filter_cons_False, filter_nil, app_nil_r by (simpl; tauto).
  apply filter_all. intros [n' k'] Hin. simpl. intros ->.
  apply (Hn n); [|simpl; left]. apply list_elem_of_fmap. by exists (n, k').
Qed.

Lemma linked_last l m nx n k :
  linked (l ++ [(n, k)]) m nx → ∃ v, m !! k = Some (v, n).
Proof. intros (_ & Hlm & _). apply Hlm. apply elem_of_app. right. left. Qed.

Lemma linked_pop l m nx n k :
  linked (l ++ [(n, k)]) m nx → linked l (delete k m) nx.
Proof.
  intros Hl. destruct (linked_last _ _ _ _ _ Hl) as [v Hv].
  pose proof (linked_remove _ _ _ _ _ _ Hl Hv) as Hl'.
  rewrite filter_node_snoc in Hl'; [done|]. by destruct Hl.
Qed.

Lemma values_of_cons s k ks v :
  contents s !! k = Some v → values_of s (k :: ks) = v :: values_of s ks.
Proof. intros Hk. unfold values_of. simpl. by rewrite Hk. Qed.

Lemma values_of_ext s1 s2 ks :
  (∀ k, k ∈ ks → contents s1 !! k = contents s2 !! k) →
  values_of s1 ks = values_of s2 ks.
Proof.
  induction ks as [|k ks IH]; intros Hks; [done|].
  change (values_of s1 (k :: ks))
    with (from_option (λ v, v :: values_of s1 ks) (values_of s1 ks) (contents s1 !! k)).
  change (values_of s2 (k :: ks))
    with (from_option (λ v, v :: values_of s2 ks) (values_of s2 ks) (contents s2 !! k)).
  rewrite (Hks k) by left. rewrite IH; [done|]. intros k' ?. apply Hks. by right.
Qed.

Lemma fired_app s vs ws tr :
  fired (mk_cache (m_list s) (m_map s) (m_capacity s) (m_create_callback s)
           (m_delete_callback s) (next_node s) (fired s vs)) ws = tr →
  fired s (vs ++ ws) = tr.
Proof.
  unfold fired. simpl. intros <-. destruct (m_delete_callback s).
  - by rewrite fmap_app, app_assoc.
  - by rewrite !app_nil_r.
Qed.

Lemma trim_loop_eq fuel : ∀ s,
  linked (m_list s) (m_map s) (next_node s) →
  m_capacity s < length (m_list s) → length (m_list s) ≤ fuel →
  trim_loop fuel s = Ok (tt, trimmed s).
Proof.
  induction fuel as [|fuel IH]; intros s Hl Hcap Hfuel; [lia|].
  destruct s as [l m cap cr dl nx tr]. simpl in *.
  destruct (decide (l = [])) as [->|Hne]; [simpl in *; lia|].
  apply last_is_Some in Hne as [[n k] Hx]. apply last_Some in Hx as [l0 ->].
  destruct (linked_last _ _ _ _ _ Hl) as [v Hv].
  pose proof (linked_pop _ _ _ _ _ Hl) as Hl0.
  pose proof (linked_NoDup_keys _ _ _ Hl) as Hnd.
  rewrite length_app in *. simpl in *.
  unfold_M. erewrite erase_oldest_eq; [|reflexivity|exact Hv]. simpl.
  unfold list_size, capacity. unfold_M. simpl.
  unfold trimmed, recency. simpl. rewrite fmap_app. simpl.
  destruct (decide (cap < length l0)) as [Hlt|Hge].
  - rewrite IH; [|done|simpl; lia|simpl; lia]. unfold trimmed, recency. simpl.
    rewrite take_app_le, drop_app_le by (rewrite ?length_fmap; lia).
    rewrite foldr_app. simpl. do 3 f_equal.
    rewrite reverse_app.
    change (reverse [k] ++ reverse (drop cap l0.*2))
      with (k :: reverse (drop cap l0.*2)).
    erewrite (values_of_cons _ k); [|unfold contents; simpl; by rewrite lookup_fmap, Hv].
    symmetry. apply (fired_app _ [v]). simpl. f_equal.
    apply values_of_ext. intros k' Hk'. unfold contents. simpl.
    rewrite !lookup_fmap, lookup_delete_ne; [done|]. intros <-.
    rewrite fmap_app in Hnd. apply NoDup_app in Hnd as (_ & Hnd & _).
    apply (Hnd k); [|left]. rewrite elem_of_reverse in Hk'.
    by eapply subseteq_drop.
  - assert (cap = length l0) as -> by lia.
    rewrite take_app_length. rewrite <-(length_fmap snd l0), drop_app_length.
    simpl. do 3 f_equal. unfold values_of, contents. simpl.
    by rewrite lookup_fmap, Hv.
Qed.

Lemma trim_fits s :
  base.size (m_map s) ≤ m_capacity s → trim s = Ok (false, s).
Proof.
  intros Hsz. unfold trim, size, capacity. unfold_M. by rewrite decide_True.
Qed.

Lemma trim_over s :
  linked (m_list s) (m_map s) (next_node s) →
  m_capacity s < length (m_list s) →
  trim s = Ok (true, trimmed s).
Proof.
  intros Hl Hcap. unfold trim, size, capacity, list_size. unfold_M.
  rewrite (linked_size _ _ _ Hl). rewrite decide_False by lia.
  rewrite trim_loop_eq by (done || lia). done.
Qed.

(** The loop returns within its fuel, whatever the state. *)
Lemma trim_loop_fuel fuel : ∀ s,
  length (m_list s) < fuel → trim_loop fuel s ≠ OutOfFuel.
Proof.
  induction fuel as [|fuel IH]; intros s Hfuel; [lia|].
  simpl. unfold_M. unfold list_size, capacity. unfold_M.
  destruct (decide (m_list s = [])) as [Hnil|Hne].
  { by rewrite erase_oldest_empty. }
  apply last_is_Some in Hne as [[n k] Hx]. apply last_Some in Hx as [l0 Hl0].
  destruct (m_map s !! k) as [[v n']|] eqn:Hk.
  - rewrite (erase_oldest_eq _ _ _ _ _ _ Hl0 Hk). simpl. case_decide; [|done].
    apply IH. simpl. rewrite Hl0, length_app in Hfuel. simpl in Hfuel. lia.
  - unfold erase_oldest, map_find, map_erase. unfold_M.
    rewrite (list_back_eq _ _ _ _ Hl0), (list_pop_back_eq _ _ _ Hl0). simpl.
    by rewrite Hk.
Qed.

Lemma trim_fuel s : trim s ≠ OutOfFuel.
Proof.
  unfold trim, size, capacity, list_size. unfold_M. case_decide; [done|].
  pose proof (trim_loop_fuel (S (length (m_list s))) s) as Hf.
  destruct (trim_loop _ s) as [[??]| |]; [done|done|]. exfalso. apply Hf; [lia|done].
Qed.

(** ** Well-formedness of the states the member functions produce *)

Lemma linked_node_in l m nx k v n :
  linked l m nx → m !! k = Some (v, n) → n ∈ l.*1.
Proof.
  intros (_ & Hlm & _) Hk. apply list_elem_of_fmap. exists (n, k).
  split; [done|]. apply Hlm. eauto.
Qed.

Lemma linked_touch l m nx k v v' n :
  linked l m nx → m !! k = Some (v, n) →
  linked ((nx, k) :: filter (λ x, x.1 ≠ n) l) (<[k := (v', nx)]> m) (S nx).
Proof.
  intros Hl Hk. rewrite <-insert_delete_eq.
  apply linked_push; [by eapply linked_remove|]. apply lookup_delete_eq.
Qed.

Lemma linked_trimmed l1 l2 m nx :
  linked (l1 ++ l2) m nx → linked l1 (foldr delete m l2.*2) nx.
Proof.
  revert m. induction l2 as [|[n k] l2 IH] using rev_ind; intros m Hl.
  - by rewrite app_nil_r in Hl.
  - rewrite fmap_app, foldr_app. simpl. apply IH.
    rewrite app_assoc in Hl. by eapply linked_pop.
Qed.

Lemma wf_mk l m c cr dl nx tr :
  wf (mk_cache l m c cr dl nx tr) ↔ linked l m nx.
Proof. apply wf_linked. Qed.

Lemma wf_trimmed s : wf s → wf (trimmed s).
Proof.
  intros Hwf%wf_linked. apply wf_mk. unfold recency.
  rewrite <-fmap_drop. apply linked_trimmed. by rewrite take_drop.
Qed.

Lemma wf_size s : wf s → base.size (m_map s) = length (m_list s).
Proof. by intros (_ & _ & ? & _). Qed.

Lemma size_trimmed s :
  wf s → base.size (m_map (trimmed s)) = length (m_list s) `min` m_capacity s.
Proof.
  intros Hwf. rewrite (wf_size _ (wf_trimmed _ Hwf)). simpl.
  rewrite length_take. lia.
Qed.

Lemma wf_LRU_Cache c cr dl : wf (LRU_Cache c cr dl).
Proof. apply wf_mk, linked_nil. Qed.

Lemma wf_set_capacity c s : wf (set_capacity c s) ↔ wf s.
Proof. by rewrite !wf_linked. Qed.

Lemma wf_set_calls tr s : wf (set_calls tr s) ↔ wf s.
Proof. by rewrite !wf_linked. Qed.

(** ** The [on_delete] calls in a trace *)

Lemma deleted_mk l m c cr dl nx s vs :
  m_delete_callback s = dl →
  deleted (mk_cache l m c cr dl nx (fired s vs)) =
  deleted s ++ match dl with Some _ => vs | None => [] end.
Proof.
  intros <-. unfold deleted, fired. simpl. rewrite omap_app. f_equal.
  destruct (m_delete_callback s); [|done].
  induction vs as [|v vs IH]; [done|]. simpl. by f_equal.
Qed.

Lemma fired_nil s : fired s [] = calls s.
Proof. unfold fired. destruct (m_delete_callback s); simpl; by rewrite app_nil_r. Qed.

Lemma deleted_made s k :
  deleted (set_calls (calls s ++ match m_create_callback s with
                                 | Some _ => [create_call k]
                                 | None => []
                                 end) s) = deleted s.
Proof.
  unfold deleted. simpl. rewrite omap_app.
  destruct (m_create_callback s); simpl; by rewrite app_nil_r.
Qed.

(** ** The values expected to leave *)

Lemma contents_lookup s k : contents s !! k = fst <$> m_map s !! k.
Proof. unfold contents. by rewrite lookup_fmap. Qed.

Lemma length_recency s : length (recency s) = length (m_list s).
Proof. apply length_fmap. Qed.

Lemma recency_present s k :
  wf s → k ∈ recency s ↔ is_Some (m_map s !! k).
Proof.
  intros (_ & Hlm & _)%wf_linked. unfold recency. rewrite list_elem_of_fmap. split.
  - intros ([n k'] & -> & [v Hv]%Hlm). by eexists.
  - intros [[v n] Hv]. exists (n, k). split; [done|]. apply Hlm. eauto.
Qed.

Lemma values_of_length s ks :
  wf s → (∀ k, k ∈ ks → k ∈ recency s) →
  length (values_of s ks) = length ks.
Proof.
  intros Hwf. induction ks as [|k ks IH]; intros Hks; [done|].
  assert (k ∈ recency s) as [[v n] Hv]%recency_present by (apply Hks; left); [|done].
  erewrite values_of_cons by (by rewrite contents_lookup, Hv).
  simpl. rewrite IH; [done|]. intros k' ?. apply Hks. by right.
Qed.

Lemma evicted_room s :
  wf s → base.size (m_map s) ≠ m_capacity s → evicted_by_insert s = [].
Proof.
  intros Hwf Hsz. unfold evicted_by_insert, recency.
  rewrite length_fmap, <-(wf_size _ Hwf). by rewrite decide_False.
Qed.

Lemma evicted_full s l n k v n' :
  wf s → base.size (m_map s) = m_capacity s →
  m_list s = l ++ [(n, k)] → m_map s !! k = Some (v, n') →
  evicted_by_insert s = [v].
Proof.
  intros Hwf Hsz Hl Hk. unfold evicted_by_insert, recency.
  rewrite length_fmap, <-(wf_size _ Hwf). rewrite decide_True by done.
  rewrite Hl, fmap_app. simpl. rewrite last_snoc. simpl.
  erewrite values_of_cons; [done|]. by rewrite contents_lookup, Hk.
Qed.

(** ** One call that stores no new value *)

Lemma step_same o s :
  wf s → leaving o s = [] → entering o s = 0 → plain o → step_ok o s s.
Proof.
  intros Hwf Hlv Hen Hpl. unfold step_ok. rewrite Hlv, Hen.
  split_and!; [done|done| |done|by destruct o|by destruct o].
  destruct (m_delete_callback s); by rewrite app_nil_r.
Qed.

Lemma step_touched o s k v n v' vs tr :
  wf s → m_map s !! k = Some (v, n) →
  leaving o s = vs → entering o s = length vs → tr = fired s vs →
  plain o →
  step_ok o s
    (mk_cache ((next_node s, k) :: filter (λ x, x.1 ≠ n) (m_list s))
       (<[k := (v', next_node s)]> (m_map s)) (m_capacity s)
       (m_create_callback s) (m_delete_callback s) (S (next_node s)) tr).
Proof.
  intros Hwf Hk Hlv Hen -> Hpl. unfold step_ok. rewrite Hlv, Hen. simpl.
  rewrite map_size_insert_Some by eauto.
  split_and!; [|done| |done|by destruct o|by destruct o].
  - apply wf_mk. eapply linked_touch; [by apply wf_linked|done].
  - by apply deleted_mk.
Qed.

Lemma step_erased o s k v n :
  wf s → m_map s !! k = Some (v, n) →
  leaving o s = [v] → entering o s = 0 → plain o →
  step_ok o s
    (mk_cache (filter (λ x, x.1 ≠ n) (m_list s)) (delete k (m_map s))
       (m_capacity s) (m_create_callback s) (m_delete_callback s)
       (next_node s) (fired s [v])).
Proof.
  intros Hwf Hk Hlv Hen Hpl. unfold step_ok. rewrite Hlv, Hen. simpl.
  rewrite map_size_delete_Some by eauto.
  assert (base.size (m_map s) ≠ 0).
  { apply map_size_ne_0_lookup. eauto. }
  split_and!; [|lia| |lia|by destruct o|by destruct o].
  - apply wf_mk. eapply linked_remove; [by apply wf_linked|done].
  - by apply deleted_mk.
Qed.

Lemma trim_spec s :
  wf s →
  ∃ b s', trim s = Ok (b, s') ∧ wf s'
    ∧ base.size (m_map s') = length (m_list s) `min` m_capacity s
    ∧ deleted s' = deleted s ++ match m_delete_callback s with
                                | Some _ => values_of s (reverse (drop (m_capacity s) (recency s)))
                                | None => []
                                end
    ∧ base.size (m_map s')
      + length (values_of s (reverse (drop (m_capacity s) (recency s))))
      = base.size (m_map s)
    ∧ m_capacity s' = m_capacity s
    ∧ m_create_callback s' = m_create_callback s
    ∧ m_delete_callback s' = m_delete_callback s.
Proof.
  intros Hwf. pose proof (wf_size _ Hwf) as Hsz.
  destruct (decide (base.size (m_map s) ≤ m_capacity s)) as [Hle|Hgt].
  - exists false, s. rewrite trim_fits by done.
    assert (drop (m_capacity s) (recency s) = []) as ->.
    { apply drop_ge. unfold recency. rewrite length_fmap. lia. }
    split_and!; [done|done|lia| |simpl; lia|done..].
    destruct (m_delete_callback s); by rewrite app_nil_r.
  - exists true, (trimmed s). rewrite trim_over by (by apply wf_linked || lia).
    rewrite size_trimmed by done.
    rewrite values_of_length;
      [|done|intros k Hk; rewrite elem_of_reverse in Hk; by eapply subseteq_drop].
    rewrite length_reverse, length_drop, length_recency.
    split_and!; [done|by apply wf_trimmed|done| |lia|done..].
    by apply deleted_mk.
Qed.

Lemma resize_spec n s :
  wf s → ∃ s', resize n s = Ok (tt, s') ∧ step_ok (Resize n) s s'.
Proof.
  intros Hwf.
  destruct (trim_spec (set_capacity n s))
    as (b & s' & Ht & Hwf' & Hsz & Hdel & Hacc & Hcap & _ & Hdl).
  { by apply wf_set_capacity. }
  exists s'. unfold resize. unfold_M. rewrite Ht. split; [done|].
  unfold step_ok.
  split_and!; [exact Hwf'|intros _; rewrite Hsz, Hcap; simpl; lia|exact Hdel|
               |exact Hcap|exact Hdl].
  simpl entering. rewrite Nat.add_0_r. exact Hacc.
Qed.

Lemma clear_spec s :
  wf s → ∃ s', clear s = Ok (tt, s') ∧ step_ok Clear s s'.
Proof.
  intros Hwf.
  destruct (trim_spec (set_capacity 0 s))
    as (b & s' & Ht & Hwf' & Hsz & Hdel & Hacc & Hcap & _ & Hdl).
  { by apply wf_set_capacity. }
  exists (set_capacity (m_capacity s) s'). unfold clear, capacity. unfold_M.
  rewrite Ht. split; [done|].
  unfold step_ok.
  split_and!; [by apply wf_set_capacity|intros _; simpl; rewrite Hsz; simpl; lia|
               exact Hdel| |done|exact Hdl].
  simpl entering. rewrite Nat.add_0_r. exact Hacc.
Qed.

Lemma wf_node s k v n :
  wf s → m_map s !! k = Some (v, n) →
  NoDup (m_list s).*1 ∧ n ∈ (m_list s).*1.
Proof.
  intros Hl%wf_linked Hk. split; [by destruct Hl|by eapply linked_node_in].
Qed.

Lemma step_ok_after_create o s s' k :
  step_ok o (set_calls (calls s ++ match m_create_callback s with
                                   | Some _ => [create_call k]
                                   | None => []
                                   end) s) s' →
  step_ok o s s'.
Proof.
  unfold step_ok. rewrite deleted_made. intros (? & ? & ? & ? & ? & ?).
  by split_and!.
Qed.

Lemma inv_LRU_Cache c cr dl : inv (LRU_Cache c cr dl).
Proof. split; [apply wf_LRU_Cache|]. simpl. rewrite map_size_empty. lia. Qed.

(** ** What a client observes of a promotion *)

Lemma touched_obs s k v n v' tr :
  wf s → m_map s !! k = Some (v, n) →
  let s' := mk_cache ((next_node s, k) :: filter (λ x, x.1 ≠ n) (m_list s))
              (<[k := (v', next_node s)]> (m_map s)) (m_capacity s)
              (m_create_callback s) (m_delete_callback s) (S (next_node s)) tr in
  wf s' ∧ same_setup s s'
  ∧ recency s' = k :: filter (λ k', k' ≠ k) (recency s)
  ∧ contents s' = <[k := v']> (contents s).
Proof.
  intros Hwf Hk s'. pose proof Hwf as Hl%wf_linked. split_and!.
  - apply wf_mk. by eapply linked_touch.
  - done.
  - unfold recency. simpl. f_equal. by eapply linked_filter_keys.
  - unfold contents. simpl. by rewrite fmap_insert.
Qed.

Lemma touch_obs s k :
  wf s → is_Some (contents s !! k) →
  ∃ s', touch k s = Ok (true, s') ∧ wf s' ∧ same_setup s s'
    ∧ recency s' = k :: filter (λ k', k' ≠ k) (recency s)
    ∧ contents s' = contents s ∧ calls s' = calls s.
Proof.
  intros Hwf [v Hv]. rewrite contents_lookup in Hv.
  destruct (m_map s !! k) as [[v' n]|] eqn:Hk; simplify_eq/=.
  destruct (wf_node _ _ _ _ Hwf Hk) as [Hnd Hn].
  eexists. split; [by apply touch_present|].
  destruct (touched_obs s k v n v (calls s) Hwf Hk) as (? & ? & ? & Hc).
  split_and!; [done..| |done]. rewrite Hc. apply insert_id.
  by rewrite contents_lookup, Hk.
Qed.

Lemma recency_snoc s l n k :
  m_list s = l ++ [(n, k)] → recency s = l.*2 ++ [k].
Proof. intros Hl. unfold recency. by rewrite Hl, fmap_app. Qed.

Lemma take_app_take {A} (n : nat) (l1 l2 : list A) :
  take n (l1 ++ take n l2) = take n (l1 ++ l2).
Proof.
  rewrite !take_app. f_equal. rewrite take_take. f_equal. lia.
Qed.

Lemma recency_after_insert {A} (c : nat) (k : A) (r : list A) :
  0 < c → length r ≤ c →
  k :: (if decide (length r = c) then removelast r else r) = take c (k :: r).
Proof.
  intros Hc Hr. destruct c as [|c]; [lia|]. simpl. f_equal. case_decide.
  - rewrite removelast_take. f_equal. lia.
  - rewrite take_ge; [done|lia].
Qed.

Lemma contains_recency s k :
  wf s → contains k s = Ok (bool_decide (k ∈ recency s), s).
Proof.
  intros Hwf. rewrite contains_eq. do 2 f_equal.
  apply bool_decide_ext. symmetry. by apply recency_present.
Qed.

(** ** The destructor *)

Lemma fire_all_eq vs : ∀ s, fire_all vs s = Ok (tt, set_calls (fired s vs) s).
Proof.
  induction vs as [|v vs IH]; intros s.
  - simpl. unfold_M. rewrite fired_nil. by destruct s.
  - simpl. unfold_M. rewrite fire_delete_eq, IH. do 2 f_equal.
    unfold set_calls. simpl. f_equal. symmetry. by apply (fired_app _ [v]).
Qed.

Lemma destroy_eq s : destroy s = Ok (tt, set_calls (fired s (resident s)) s).
Proof. unfold destroy. apply fire_all_eq. Qed.

Lemma deleted_set_calls s vs :
  deleted (set_calls (fired s vs) s) =
  deleted s ++ match m_delete_callback s with Some _ => vs | None => [] end.
Proof. by apply deleted_mk. Qed.

(** C7: [at] and [contains] return the cache exactly as they found it, so
    size, stored values, recency order, capacity and the record of callback
    calls are unchanged; [at] returns the stored value of a present key and
    nothing for an absent one, [contains] returns whether the key is
    present. *)
Theorem peeks_are_pure s k :
  at_ k s = Ok (contents s !! k, s)
  ∧ contains k s = Ok (bool_decide (is_Some (contents s !! k)), s).
Proof.
  split; [apply at_eq|]. rewrite contains_eq. do 2 f_equal.
  apply bool_decide_ext. rewrite contents_lookup. by rewrite fmap_is_Some.
Qed.

(** C10: touching a present key a second time changes nothing a client can
    observe (recency order, stored values, capacity, callbacks, callback
    calls), and touching the most recently used key leaves the recency
    order and the stored values as they are while returning [true]. *)
Theorem touch_idempotent s k :
  wf s → is_Some (contents s !! k) →
  ∃ s1 s2, touch k s = Ok (true, s1) ∧ touch k s1 = Ok (true, s2)
    ∧ observable s2 = observable s1
    ∧ (head (recency s) = Some k → observable s1 = observable s).
Proof.
  intros Hwf Hk.
  destruct (touch_obs s k Hwf Hk) as (s1 & H1 & Hwf1 & (Hc1 & Hcr1 & Hdl1) & Hr1 & Hv1 & Ht1).
  assert (Hk1 : is_Some (contents s1 !! k)) by (by rewrite Hv1).
  destruct (touch_obs s1 k Hwf1 Hk1) as (s2 & H2 & Hwf2 & (Hc2 & Hcr2 & Hdl2) & Hr2 & Hv2 & Ht2).
  exists s1, s2. split_and!; [done|done| |].
  - unfold observable. rewrite Hc2, Hcr2, Hdl2, Hv2, Ht2. do 5 f_equal.
    rewrite Hr2, Hr1. f_equal. rewrite filter_cons_False by tauto.
    by apply list_filter_filter_l.
  - intros Hhd. unfold observable. rewrite Hc1, Hcr1, Hdl1, Hv1, Ht1. do 5 f_equal.
    rewrite Hr1. pose proof (linked_NoDup_keys _ _ _ (proj1 (wf_linked s) Hwf)) as Hnd.
    fold (recency s) in Hnd. destruct (recency s) as [|k' r]; simplify_eq/=.
    apply NoDup_cons in Hnd as [Hk' _].
    rewrite filter_cons_False by tauto. f_equal.
    apply filter_all. by intros k'' ? ->.
Qed.

Lemma fired_no_deleter s vs : m_delete_callback s = None → fired s vs = calls s.
Proof. intros Hdl. unfold fired. by rewrite Hdl, app_nil_r. Qed.

(** ** Eviction, removal and iteration seen by a client *)

Lemma created_mk l m c cr dl nx s vs :
  created (mk_cache l m c cr dl nx (fired s vs)) = created s.
Proof.
  unfold created, fired. simpl. rewrite omap_app.
  assert (∀ ws : list Value,
    omap (λ e : event (Key:=Key), match e with
                                  | create_call k => Some k
                                  | delete_call _ => None
                                  end) (delete_call <$> ws) = []) as Hnil.
  { intros ws. induction ws as [|w ws IH]; [done|]. simpl. exact IH. }
  destruct (m_delete_callback s); simpl; by rewrite ?Hnil, app_nil_r.
Qed.

Lemma recency_trimmed s :
  recency (trimmed s) = take (m_capacity s) (recency s).
Proof. unfold trimmed, recency. simpl. apply fmap_take. Qed.

Lemma fmap_foldr_delete m ks :
  fst <$> foldr delete m ks = foldr delete (fst <$> m) ks.
Proof.
  induction ks as [|k ks IH]; [done|]. simpl. by rewrite fmap_delete, IH.
Qed.

Lemma contents_trimmed s :
  contents (trimmed s)
  = foldr delete (contents s) (drop (m_capacity s) (recency s)).
Proof. unfold trimmed, contents. simpl. apply fmap_foldr_delete. Qed.

Lemma lookup_foldr_delete (c : gmap Key Value) ks k :
  foldr delete c ks !! k = if decide (k ∈ ks) then None else c !! k.
Proof.
  induction ks as [|k' ks IH]; [done|]. simpl.
  destruct (decide (k = k')) as [->|Hne].
  - rewrite lookup_delete_eq. rewrite decide_True; [done|left].
  - rewrite lookup_delete_ne, IH by done.
    destruct (decide (k ∈ ks)) as [Hin|Hin].
    + rewrite decide_True; [done|by right].
    + rewrite decide_False; [done|]. by intros [?|?]%elem_of_cons.
Qed.

Lemma wf_NoDup_recency s : wf s → NoDup (recency s).
Proof. intros Hl%wf_linked. by eapply linked_NoDup_keys. Qed.

Lemma recency_absent s k : wf s → k ∉ recency s → contents s !! k = None.
Proof.
  intros Hwf Hk. rewrite contents_lookup.
  destruct (m_map s !! k) as [e|] eqn:E; [|done].
  exfalso. apply Hk. apply recency_present; eauto.
Qed.

Lemma kept_lookup s n k :
  wf s → k ∈ take n (recency s) →
  foldr delete (contents s) (drop n (recency s)) !! k = contents s !! k.
Proof.
  intros Hwf Hk. rewrite lookup_foldr_delete. rewrite decide_False; [done|].
  pose proof (wf_NoDup_recency _ Hwf) as Hnd.
  rewrite <-(take_drop n (recency s)) in Hnd.
  apply NoDup_app in Hnd as (_ & Hdisj & _). by apply Hdisj.
Qed.

Lemma resize_eq n s :
  wf s →
  resize n s =
  Ok (tt, if decide (base.size (m_map s) ≤ n) then set_capacity n s
          else trimmed (set_capacity n s)).
Proof.
  intros Hwf. unfold resize. unfold_M. case_decide as Hsz.
  - by rewrite trim_fits.
  - rewrite trim_over; [done|by apply wf_linked, wf_set_capacity|].
    simpl. rewrite <-(wf_size _ Hwf). lia.
Qed.

Lemma clear_eq s :
  wf s →
  clear s =
  Ok (tt, set_capacity (m_capacity s)
            (if decide (base.size (m_map s) ≤ 0) then set_capacity 0 s
             else trimmed (set_capacity 0 s))).
Proof.
  intros Hwf. unfold clear, capacity. unfold_M. case_decide as Hsz.
  - by rewrite trim_fits.
  - rewrite trim_over; [done|by apply wf_linked, wf_set_capacity|].
    simpl. rewrite <-(wf_size _ Hwf). lia.
Qed.

Lemma snoc_keys (l : list (node * Key)) r k :
  l.*2 = r ++ [k] → ∃ l0 n, l = l0 ++ [(n, k)] ∧ l0.*2 = r.
Proof.
  intros (l0 & l1 & -> & Hk & ->)%fmap_app_inv.
  destruct l1 as [|[n k'] [|??]]; simplify_eq/=. by exists l0, n.
Qed.

Lemma clear_obs s :
  wf s →
  let s' := set_capacity (m_capacity s)
              (if decide (base.size (m_map s) ≤ 0) then set_capacity 0 s
               else trimmed (set_capacity 0 s)) in
  wf s' ∧ recency s' = [] ∧ m_map s' = ∅.
Proof.
  intros Hwf s'. pose proof (wf_size _ Hwf) as Hsz.
  assert (Hwf' : wf s').
  { apply wf_set_capacity. case_decide; [by apply wf_set_capacity|].
    by apply wf_trimmed, wf_set_capacity. }
  assert (Hr : recency s' = []).
  { unfold s'. case_decide as Hfit.
    - unfold recency. simpl. destruct (m_list s); [done|simpl in *; lia].
    - change (recency (trimmed (set_capacity 0 s)) = []).
      by rewrite recency_trimmed. }
  split_and!; [done|done|].
  apply map_size_empty_inv. rewrite (wf_size _ Hwf'), <-length_recency.
  by rewrite Hr.
Qed.

(** X1: [resize(n)] always completes.  It keeps the [n] most recently used
    entries in their order with their values, sets the capacity to [n], and
    offers the dropped values to [on_delete], least recently used first;
    when the cache already fits, only the capacity changes. *)
Theorem resize_keeps_most_recent n s :
  wf s →
  ∃ s', resize n s = Ok (tt, s') ∧ wf s'
    ∧ recency s' = take n (recency s)
    ∧ (∀ k, k ∈ recency s' → contents s' !! k = contents s !! k)
    ∧ base.size (m_map s') = length (recency s) `min` n
    ∧ m_capacity s' = n
    ∧ m_create_callback s' = m_create_callback s
    ∧ m_delete_callback s' = m_delete_callback s
    ∧ deleted s' = deleted s ++ match m_delete_callback s with
                                | Some _ => values_of s (reverse (drop n (recency s)))
                                | None => []
                                end
    ∧ (length (recency s) ≤ n → s' = set_capacity n s).
Proof.
  intros Hwf. pose proof (wf_size _ Hwf) as Hsz.
  rewrite <-length_recency in Hsz.
  eexists. split; [by apply resize_eq|]. case_decide as Hfit.
  - rewrite take_ge, drop_ge by lia.
    split_and!; [by apply wf_set_capacity|done|done|simpl; lia|done..| |done].
    destruct (m_delete_callback s); by rewrite app_nil_r.
  - assert (Hwf' : wf (trimmed (set_capacity n s)))
      by (by apply wf_trimmed, wf_set_capacity).
    split_and!; [done|exact (recency_trimmed (set_capacity n s))| | |done..| |lia].
    + intros k. rewrite recency_trimmed, contents_trimmed. simpl.
      intros Hk. by apply (kept_lookup s n k).
    + rewrite size_trimmed by (by apply wf_set_capacity). simpl.
      by rewrite length_recency.
    + exact (deleted_mk _ _ _ _ _ _ (set_capacity n s) _ eq_refl).
Qed.

(** X2: [clear()] always completes.  It leaves no entry, keeps the capacity
    and the callbacks, and offers every stored value to [on_delete], least
    recently used first. *)
Theorem clear_empties s :
  wf s →
  ∃ s', clear s = Ok (tt, s') ∧ wf s'
    ∧ recency s' = [] ∧ contents s' = ∅
    ∧ empty s' = Ok (true, s')
    ∧ m_capacity s' = m_capacity s
    ∧ m_create_callback s' = m_create_callback s
    ∧ m_delete_callback s' = m_delete_callback s
    ∧ deleted s' = deleted s ++ match m_delete_callback s with
                                | Some _ => values_of s (reverse (recency s))
                                | None => []
                                end.
Proof.
  intros Hwf. pose proof (wf_size _ Hwf) as Hsz.
  eexists. split; [by apply clear_eq|].
  destruct (clear_obs s Hwf) as (Hwf' & Hr & Hm).
  set (s' := set_capacity _ _) in *.
  split_and!; [done|done| | | | | |].
  - unfold contents. by rewrite Hm, fmap_empty.
  - unfold empty, read. by rewrite bool_decide_eq_true_2.
  - done.
  - unfold s'. by case_decide.
  - unfold s'. by case_decide.
  - unfold s'. case_decide as Hfit.
    + assert (recency s = []) as ->.
      { unfold recency. destruct (m_list s); [done|simpl in *; lia]. }
      change (deleted s = deleted s ++ match m_delete_callback s with
                                       | Some _ => values_of s (reverse [])
                                       | None => []
                                       end).
      destruct (m_delete_callback s); by rewrite app_nil_r.
    + change (deleted (trimmed (set_capacity 0 s))
              = deleted s ++ match m_delete_callback s with
                             | Some _ => values_of s (reverse (recency s))
                             | None => []
                             end).
      exact (deleted_mk _ _ _ _ _ _ (set_capacity 0 s) _ eq_refl).
Qed.

(** X3: [erase] of a present key returns [true] and removes that entry alone:
    the other keys keep their order and values, capacity and callbacks stay,
    and [on_delete] is offered exactly the erased value. *)
Theorem erase_removes s k v :
  wf s → contents s !! k = Some v →
  ∃ s', erase k s = Ok (true, s') ∧ wf s'
    ∧ recency s' = filter (λ k', k' ≠ k) (recency s)
    ∧ contents s' = delete k (contents s)
    ∧ contains k s' = Ok (false, s')
    ∧ base.size (m_map s') = pred (base.size (m_map s))
    ∧ same_setup s s'
    ∧ deleted s' = deleted s ++ match m_delete_callback s with
                                | Some _ => [v]
                                | None => []
                                end.
Proof.
  intros Hwf Hv. rewrite contents_lookup in Hv.
  destruct (m_map s !! k) as [[v' n]|] eqn:Hk; simplify_eq/=.
  destruct (wf_node _ _ _ _ Hwf Hk) as [Hnd Hn].
  pose proof Hwf as Hl%wf_linked.
  eexists. split; [by apply erase_present|].
  split_and!; [| | | | |done|].
  - apply wf_mk. by eapply linked_remove.
  - unfold recency. simpl. by eapply linked_filter_keys.
  - unfold contents. simpl. by rewrite fmap_delete.
  - rewrite contains_eq. simpl. rewrite lookup_delete_eq.
    rewrite bool_decide_eq_false_2; [done|]. by intros [??].
  - simpl. apply map_size_delete_Some. eauto.
  - by apply deleted_mk.
Qed.

(** X4: [erase_oldest] on a cache with entries removes the least recently used
    one and offers its value to [on_delete]; on an empty cache it reads the
    back of the empty list. *)
Theorem erase_oldest_removes_last s :
  (∀ r k, wf s → recency s = r ++ [k] →
     ∃ v s', contents s !! k = Some v
       ∧ erase_oldest s = Ok (tt, s') ∧ wf s'
       ∧ recency s' = r ∧ contents s' = delete k (contents s)
       ∧ same_setup s s'
       ∧ deleted s' = deleted s ++ match m_delete_callback s with
                                   | Some _ => [v]
                                   | None => []
                                   end)
  ∧ (recency s = [] → erase_oldest s = Undefined list_back_on_empty).
Proof.
  split.
  - intros r k Hwf Hr. apply snoc_keys in Hr as (l0 & n & Hl0 & <-).
    pose proof Hwf as Hl%wf_linked. rewrite Hl0 in Hl.
    destruct (linked_last _ _ _ _ _ Hl) as [v Hv].
    exists v. eexists. split; [by rewrite contents_lookup, Hv|].
    split; [by eapply erase_oldest_eq|].
    split_and!; [|done| |done|].
    + apply wf_mk. by eapply linked_pop.
    + unfold contents. simpl. by rewrite fmap_delete.
    + by apply deleted_mk.
  - intros Hr. apply erase_oldest_empty. by apply fmap_nil_inv in Hr.
Qed.

(** X5: [trim] returns [false] and changes nothing when the entries fit the
    capacity; otherwise it returns [true] with exactly the capacity's worth
    of most recently used entries left.  Its loop ends within the number of
    entries, whatever the state. *)
Theorem trim_evicts_down s :
  (wf s →
     (length (recency s) ≤ m_capacity s → trim s = Ok (false, s))
     ∧ (m_capacity s < length (recency s) →
          ∃ s', trim s = Ok (true, s') ∧ wf s'
            ∧ recency s' = take (m_capacity s) (recency s)
            ∧ base.size (m_map s') = m_capacity s
            ∧ m_capacity s' = m_capacity s))
  ∧ trim s ≠ OutOfFuel.
Proof.
  split; [|apply trim_fuel]. intros Hwf. pose proof (wf_size _ Hwf) as Hsz.
  rewrite length_recency. split.
  - intros Hfit. apply trim_fits. lia.
  - intros Hover. exists (trimmed s).
    split; [by apply trim_over; [apply wf_linked|]|].
    split_and!; [by apply wf_trimmed|apply recency_trimmed| |done].
    rewrite size_trimmed by done. lia.
Qed.

(** X6: Walking the cache from [begin()] to [end()] meets every stored key
    exactly once, with its value: the keys met are the recency order up to
    a permutation. *)
Theorem range_visits_each_entry_once s :
  wf s →
  (range s).*1 ≡ₚ recency s
  ∧ NoDup (range s).*1
  ∧ length (range s) = length (recency s)
  ∧ (∀ k v, (∃ it, (k, (v, it)) ∈ range s) ↔ contents s !! k = Some v).
Proof.
  intros Hwf. unfold range.
  assert (Hperm : (map_to_list (m_map s)).*1 ≡ₚ recency s).
  { apply NoDup_Permutation;
      [apply NoDup_fst_map_to_list|by apply wf_NoDup_recency|].
    intros k. rewrite (recency_present _ _ Hwf), list_elem_of_fmap. split.
    - intros ([k' e] & -> & Hin). apply elem_of_map_to_list in Hin. eauto.
    - intros [e He]. exists (k, e). split; [done|].
      by apply elem_of_map_to_list. }
  split_and!; [done|apply NoDup_fst_map_to_list| |].
  - by rewrite <-(length_fmap fst), Hperm.
  - intros k v. rewrite contents_lookup. split.
    + intros [it Hin]. apply elem_of_map_to_list in Hin. by rewrite Hin.
    + intros Hv. destruct (m_map s !! k) as [[v' it]|] eqn:E; simplify_eq/=.
      exists it. by apply elem_of_map_to_list.
Qed.

End Structure.

(** Insertion converts the value to [Key] and back, so everything from
    [insert] on is stated for given conversions. *)

Section Calls.
Context {Key : Type} `{Countable Key}.
Context {Value : Type}.
Variable Key_from_Value : Value → Key.
Variable Value_from_Key : Key → Value.
Variable Value_default : Value.
Implicit Types (s : cache (Key:=Key) (Value:=Value)).
Implicit Types (l : list (node * Key)) (m : gmap Key (Value * node)).
Implicit Types (k : Key) (v : Value) (ks : list Key) (vs : list Value).
Implicit Types (o : op (Key:=Key) (Value:=Value)).
Implicit Types (cr : option (@create_callback_type Key Value)).
Implicit Types (dl : option (@delete_callback_type Value)).

Abbreviation map_index := (map_index Value_default).
Abbreviation make_value := (make_value Value_default).
Abbreviation made := (made Value_default).
Abbreviation insert := (insert Key_from_Value Value_from_Key Value_default).
Abbreviation insert_or_assign :=
  (insert_or_assign Key_from_Value Value_from_Key Value_default).
Abbreviation get := (get Key_from_Value Value_from_Key Value_default).
Abbreviation call := (call Key_from_Value Value_from_Key Value_default).
Abbreviation run := (run Key_from_Value Value_from_Key Value_default).
Abbreviation load := (load Key_from_Value Value_from_Key Value_default).
Abbreviation LRU_Cache_il :=
  (LRU_Cache_il Key_from_Value Value_from_Key Value_default).
Abbreviation removals :=
  (removals Key_from_Value Value_from_Key Value_default).
Abbreviation entered :=
  (entered Key_from_Value Value_from_Key Value_default).
Abbreviation invoke := (invoke Key_from_Value Value_from_Key Value_default).
Abbreviation insert_steps :=
  (insert_steps Key_from_Value Value_from_Key Value_default).
Abbreviation insert_or_assign_steps :=
  (insert_or_assign_steps Key_from_Value Value_from_Key Value_default).
Abbreviation get_steps := (get_steps Key_from_Value Value_from_Key Value_default).
Abbreviation call_steps :=
  (call_steps Key_from_Value Value_from_Key Value_default).
Abbreviation during := (during Key_from_Value Value_from_Key Value_default).
Abbreviation public_model_step :=
  (public_model_step Key_from_Value Value_from_Key Value_default).
Abbreviation public_model_ret :=
  (public_model_ret Key_from_Value Value_from_Key Value_default).

(** ** What [insert], [insert_or_assign] and [get] compute *)

Lemma insert_present s k v e :
  m_map s !! k = Some e → insert k v s = Ok (false, s).
Proof. intros Hk. unfold insert, map_find. unfold_M. by rewrite Hk. Qed.

Lemma insert_room s k v :
  m_map s !! k = None → base.size (m_map s) ≠ m_capacity s →
  insert k v s =
  Ok (true, mk_cache ((next_node s, k) :: m_list s)
              (<[k := (Value_from_Key (Key_from_Value v), next_node s)]> (m_map s))
              (m_capacity s) (m_create_callback s) (m_delete_callback s)
              (S (next_node s)) (calls s)).
Proof.
  intros Hk Hsz.
  unfold insert, map_find, make_space, size, capacity, list_push_front,
    map_index, map_store. unfold_M.
  rewrite Hk. rewrite decide_False by done. simpl. rewrite Hk. simpl.
  by rewrite insert_insert_eq.
Qed.

Lemma insert_full s k v l n k0 v0 n0 :
  m_map s !! k = None → base.size (m_map s) = m_capacity s →
  m_list s = l ++ [(n, k0)] → m_map s !! k0 = Some (v0, n0) →
  insert k v s =
  Ok (true, mk_cache ((next_node s, k) :: l)
              (<[k := (Value_from_Key (Key_from_Value v), next_node s)]>
                 (delete k0 (m_map s)))
              (m_capacity s) (m_create_callback s) (m_delete_callback s)
              (S (next_node s)) (fired s [v0])).
Proof.
  intros Hk Hsz Hl Hk0.
  unfold insert, map_find, make_space, size, capacity, list_push_front,
    map_index, map_store. unfold_M.
  rewrite Hk. rewrite decide_True by done.
  rewrite (erase_oldest_eq _ _ _ _ _ _ Hl Hk0). simpl.
  assert (k ≠ k0) by congruence.
  rewrite lookup_delete_ne, Hk by done. simpl.
  by rewrite insert_insert_eq.
Qed.

Lemma insert_full_empty s k v :
  m_map s !! k = None → base.size (m_map s) = m_capacity s → m_list s = [] →
  insert k v s = Undefined list_back_on_empty.
Proof.
  intros Hk Hsz Hl. unfold insert, map_find, make_space, size, capacity. unfold_M.
  rewrite Hk. rewrite decide_True by done. by rewrite erase_oldest_empty.
Qed.

Lemma insert_or_assign_present s k v n val :
  NoDup (m_list s).*1 → n ∈ (m_list s).*1 → m_map s !! k = Some (v, n) →
  insert_or_assign k val s =
  Ok (tt, mk_cache ((next_node s, k) :: filter (λ x, x.1 ≠ n) (m_list s))
            (<[k := (val, next_node s)]> (m_map s)) (m_capacity s)
            (m_create_callback s) (m_delete_callback s) (S (next_node s))
            (fired s [v])).
Proof.
  intros Hnd Hn Hk. unfold insert_or_assign, map_find. unfold_M. rewrite Hk.
  by erewrite assign_iter_eq.
Qed.

Lemma insert_or_assign_absent s k val :
  m_map s !! k = None →
  insert_or_assign k val s =
  match insert k val s with
  | Ok (_, s') => Ok (tt, s')
  | Undefined u => Undefined u
  | OutOfFuel => OutOfFuel
  end.
Proof.
  intros Hk. unfold insert_or_assign, map_find. unfold_M. rewrite Hk.
  by destruct (insert k val s) as [[??]| |].
Qed.

Lemma make_value_eq s k :
  make_value k s =
  Ok (made s k,
      set_calls (calls s ++ match m_create_callback s with
                            | Some _ => [create_call k]
                            | None => []
                            end) s).
Proof.
  unfold make_value, made, set_calls, record_call.
  destruct s as [l m c [f|] dl nx tr]; simpl; [done|]. by rewrite app_nil_r.
Qed.

Lemma step_insert o s k v :
  wf s → m_map s !! k = None →
  leaving o s = evicted_by_insert s → entering o s = 1 →
  plain o →
  match insert k v s with
  | Ok (b, s') =>
      b = true ∧ step_ok o s s'
      ∧ m_map s' !! k = Some (Value_from_Key (Key_from_Value v), next_node s)
  | Undefined u => u = list_back_on_empty ∧ m_capacity s = 0 ∧ m_list s = []
  | OutOfFuel => False
  end.
Proof.
  intros Hwf Hk Hlv Hen Hpl.
  assert (Hcapeq : ∀ c, c = match o with Resize n => n | _ => c end).
  { intros c. by destruct o. }
  assert (Hdleq : ∀ d, d = match o with SetDeleteCallback f => f | _ => d end).
  { intros d. by destruct o. }
  destruct (decide (base.size (m_map s) = m_capacity s)) as [Hsz|Hsz].
  - destruct (decide (m_list s = [])) as [Hnil|Hne].
    { rewrite insert_full_empty by done. split_and!; [done| |done].
      rewrite <-Hsz, (wf_size _ Hwf), Hnil. done. }
    apply last_is_Some in Hne as [[n k0] Hx]. apply last_Some in Hx as [l0 Hl0].
    pose proof Hwf as Hl%wf_linked. rewrite Hl0 in Hl.
    destruct (linked_last _ _ _ _ _ Hl) as [v0 Hv0].
    rewrite (insert_full _ _ _ _ _ _ _ _ Hk Hsz Hl0 Hv0).
    assert (k ≠ k0) by congruence.
    assert (Hsz0 : base.size (m_map s) ≠ 0).
    { apply map_size_ne_0_lookup. eauto. }
    split; [done|]. split; [|simpl; by rewrite lookup_insert_eq].
    unfold step_ok. rewrite Hlv, Hen, (evicted_full _ _ _ _ _ _ Hwf Hsz Hl0 Hv0). simpl.
    rewrite map_size_insert_None by (by rewrite lookup_delete_ne).
    rewrite map_size_delete_Some by eauto.
    split_and!; [|lia| |lia|apply Hcapeq|apply Hdleq].
    + apply wf_mk. apply linked_push; [by eapply linked_pop|].
      by rewrite lookup_delete_ne.
    + by apply deleted_mk.
  - rewrite insert_room by done.
    split; [done|]. split; [|simpl; by rewrite lookup_insert_eq].
    unfold step_ok. rewrite Hlv, Hen, (evicted_room _ Hwf Hsz). simpl.
    rewrite map_size_insert_None by done.
    split_and!; [|lia| |lia|apply Hcapeq|apply Hdleq].
    + apply wf_mk. apply linked_push; [by apply wf_linked|done].
    + destruct (m_delete_callback s); by rewrite app_nil_r.
Qed.

Lemma get_present s k v n :
  NoDup (m_list s).*1 → n ∈ (m_list s).*1 → m_map s !! k = Some (v, n) →
  get k s =
  Ok (v, mk_cache ((next_node s, k) :: filter (λ x, x.1 ≠ n) (m_list s))
           (<[k := (v, next_node s)]> (m_map s)) (m_capacity s)
           (m_create_callback s) (m_delete_callback s) (S (next_node s)) (calls s)).
Proof.
  intros Hnd Hn Hk. unfold get, map_find. unfold_M. rewrite Hk.
  rewrite (touch_present _ _ _ _ Hnd Hn Hk). unfold deref. simpl.
  by rewrite lookup_insert_eq.
Qed.

Lemma get_absent s k :
  m_map s !! k = None →
  get k s =
  match insert k (made s k)
          (set_calls (calls s ++ match m_create_callback s with
                                 | Some _ => [create_call k]
                                 | None => []
                                 end) s) with
  | Ok (_, s') => bind (map_index k) (λ e, ret e.1) s'
  | Undefined u => Undefined u
  | OutOfFuel => OutOfFuel
  end.
Proof.
  intros Hk. unfold get, map_find. unfold_M. rewrite Hk, make_value_eq.
  by destruct (insert _ _ _) as [[??]| |].
Qed.

(** ** One call *)

(** Every call on a well-formed cache either completes as [step_ok]
    describes or is the insertion into an empty cache of capacity zero, which
    reads the back of the empty list. *)
Lemma call_spec o s :
  wf s →
  match call o s with
  | Ok (r, s') => step_ok o s s'
  | Undefined u => u = list_back_on_empty ∧ m_capacity s = 0 ∧ m_list s = []
  | OutOfFuel => False
  end.
Proof.
  intros Hwf. destruct o as [k v|k v|k v|k|k|k|k|k|n| |f|f]; unfold call; unfold_M.
  - (* insert *)
    destruct (m_map s !! k) as [[v0 n]|] eqn:Hk.
    + rewrite (insert_present _ _ _ _ Hk).
      apply step_same; [done|simpl; by rewrite contents_lookup, Hk..|done].
    + pose proof (step_insert (Insert k v) s k v Hwf Hk) as Hs.
      simpl in Hs. rewrite contents_lookup, Hk in Hs. simpl in Hs.
      specialize (Hs eq_refl eq_refl I).
      destruct (insert k v s) as [[b s']| |]; [|done..]. by destruct Hs as (_ & ? & _).
  - (* insert_or_assign *)
    destruct (m_map s !! k) as [[v0 n]|] eqn:Hk.
    + destruct (wf_node _ _ _ _ Hwf Hk) as [Hnd Hn].
      rewrite (insert_or_assign_present _ _ _ _ _ Hnd Hn Hk).
      eapply step_touched; [done..|simpl; by rewrite contents_lookup, Hk|done|done|done].
    + rewrite (insert_or_assign_absent _ _ _ Hk).
      pose proof (step_insert (InsertOrAssign k v) s k v Hwf Hk) as Hs.
      simpl in Hs. rewrite contents_lookup, Hk in Hs. simpl in Hs.
      specialize (Hs eq_refl eq_refl I).
      destruct (insert k v s) as [[b s']| |]; [|done..]. by destruct Hs as (_ & ? & _).
  - (* assign *)
    destruct (m_map s !! k) as [[v0 n]|] eqn:Hk.
    + destruct (wf_node _ _ _ _ Hwf Hk) as [Hnd Hn].
      rewrite (assign_present _ _ _ _ _ Hnd Hn Hk).
      eapply step_touched; [done..|simpl; by rewrite contents_lookup, Hk| |done|done];
        simpl; by rewrite contents_lookup, Hk.
    + rewrite (assign_absent _ _ _ Hk).
      apply step_same; [done|simpl; by rewrite contents_lookup, Hk..|done].
  - (* get *)
    destruct (m_map s !! k) as [[v0 n]|] eqn:Hk.
    + destruct (wf_node _ _ _ _ Hwf Hk) as [Hnd Hn].
      rewrite (get_present _ _ _ _ Hnd Hn Hk).
      eapply (step_touched _ _ _ _ _ _ []);
        [done|done|simpl; by rewrite contents_lookup, Hk|
         simpl; by rewrite contents_lookup, Hk|by rewrite fired_nil|done].
    + rewrite (get_absent _ _ Hk).
      set (s1 := set_calls _ s).
      assert (Hwf1 : wf s1) by (by apply wf_set_calls).
      pose proof (step_insert (Get k) s1 k (made s k) Hwf1 Hk) as Hs.
      simpl in Hs. rewrite contents_lookup in Hs. simpl in Hs. rewrite Hk in Hs.
      specialize (Hs eq_refl eq_refl I).
      destruct (insert k (made s k) s1) as [[b s']| |]; [|done..].
      destruct Hs as (_ & Hs & Hk'). unfold bind, map_index, ret. rewrite Hk'.
      by eapply step_ok_after_create.
  - (* touch *)
    destruct (m_map s !! k) as [[v0 n]|] eqn:Hk.
    + destruct (wf_node _ _ _ _ Hwf Hk) as [Hnd Hn].
      rewrite (touch_present _ _ _ _ Hnd Hn Hk).
      eapply (step_touched _ _ _ _ _ _ []); [done..|by rewrite fired_nil|done].
    + rewrite (touch_absent _ _ Hk). by apply step_same.
  - (* at *) rewrite at_eq. by apply step_same.
  - (* contains *) rewrite contains_eq. by apply step_same.
  - (* erase *)
    destruct (m_map s !! k) as [[v0 n]|] eqn:Hk.
    + destruct (wf_node _ _ _ _ Hwf Hk) as [Hnd Hn].
      rewrite (erase_present _ _ _ _ Hnd Hn Hk).
      eapply step_erased; [done..|simpl; by rewrite contents_lookup, Hk|done|done].
    + rewrite (erase_absent _ _ Hk).
      apply step_same; [done|simpl; by rewrite contents_lookup, Hk|done..].
  - (* resize *)
    destruct (resize_spec n s Hwf) as (s' & -> & Hs). done.
  - (* clear *)
    destruct (clear_spec s Hwf) as (s' & -> & Hs). done.
  - (* setCreateCallback *)
    unfold setCreateCallback. unfold_M. unfold step_ok. simpl.
    split_and!; [by apply wf_linked in Hwf; apply wf_linked|done| |done..].
    unfold deleted. simpl. destruct (m_delete_callback s); by rewrite app_nil_r.
  - (* setDeleteCallback *)
    unfold setDeleteCallback. unfold_M. unfold step_ok. simpl.
    split_and!; [by apply wf_linked in Hwf; apply wf_linked|done| |done..].
    unfold deleted. simpl. destruct (m_delete_callback s); by rewrite app_nil_r.
Qed.

(** ** Scripts *)

Lemma run_cons o ops s :
  run (o :: ops) s =
  match call o s with
  | Ok (r, s') =>
      match run ops s' with
      | Ok (rs, s'') => Ok (r :: rs, s'')
      | Undefined u => Undefined u
      | OutOfFuel => OutOfFuel
      end
  | Undefined u => Undefined u
  | OutOfFuel => OutOfFuel
  end.
Proof.
  simpl. unfold_M. destruct (call o s) as [[r s']| |]; [|done..].
  by destruct (run ops s') as [[rs s'']| |].
Qed.

(** Advance a script by one call whose outcome [H] is known. *)
Ltac run_step H :=
  rewrite run_cons; unfold call; unfold_M; rewrite H; cbv beta iota.

Lemma run_spec ops : ∀ s,
  inv s →
  match run ops s with
  | Ok (rs, s') => inv s'
  | Undefined u =>
      u = list_back_on_empty ∧ (m_capacity s = 0 ∨ ¬ Forall keeps_room ops)
  | OutOfFuel => False
  end.
Proof.
  induction ops as [|o ops IH]; intros s [Hwf Hsz]; [done|].
  rewrite run_cons. pose proof (call_spec o s Hwf) as Hc.
  destruct (call o s) as [[r s']|u|]; [|naive_solver|done].
  destruct Hc as (Hwf' & Hsz' & _ & _ & Hcap & _).
  specialize (IH s' (conj Hwf' (Hsz' Hsz))).
  destruct (run ops s') as [[rs s'']|u|]; [done| |done].
  destruct IH as [-> [Hz|Hops]]; (split; [done|]).
  - rewrite Hz in Hcap. destruct o; try (left; congruence).
    right. intros [Hk _]%Forall_cons. simpl in Hk. lia.
  - right. by intros [_ ?]%Forall_cons.
Qed.

Implicit Types (t : cache (Key:=Key) (Value:=Value)).

(** ** The traced member functions

    The result of a traced function is the result of the function. *)

Lemma step_result {A} (c : M A) s : (step c s).2 = c s.
Proof. unfold step. by destruct (c s) as [[a s']|u|]. Qed.

Lemma bindT_result {A B} (c : T A) (c' : M A) (k : A → T B) (k' : A → M B) s :
  (c s).2 = c' s → (∀ a s', (k a s').2 = k' a s') →
  (bindT c k s).2 = bind c' k' s.
Proof.
  intros Hc Hk. unfold bindT, bind. rewrite <-Hc.
  destruct (c s) as [tr [[a s']|u|]]; simpl; [apply Hk|done..].
Qed.

(** Peel the statements off both sides, one at a time. *)
Ltac same_result :=
  unfold mbind, mret, T_bind, T_ret, M_bind, M_ret;
  repeat first
    [ apply step_result
    | apply bindT_result; [|intros ? ?]
    | reflexivity
    | case_decide
    | case_match ].

Lemma trim_loop_steps_result fuel : ∀ s,
  (trim_loop_steps fuel s).2 = trim_loop fuel s.
Proof.
  induction fuel as [|fuel IH]; intros s; [done|]. simpl.
  unfold mbind, T_bind, M_bind.
  do 3 (apply bindT_result; [same_result|intros ? ?]).
  case_decide; [apply IH|done].
Qed.

Lemma trim_steps_result s : (trim_steps s).2 = trim s.
Proof.
  unfold trim_steps, trim, mbind, T_bind, M_bind.
  do 2 (apply bindT_result; [same_result|intros ? ?]).
  case_decide; [done|].
  apply bindT_result; [same_result|intros ? ?].
  apply bindT_result; [apply trim_loop_steps_result|done].
Qed.

Lemma call_steps_result o s :
  (call_steps o s).2
  = call o s.
Proof.
  destruct o; unfold call_steps, call; unfold mbind, T_bind, M_bind;
    (apply bindT_result; [|done]).
  1-8, 11-12: same_result.
  - unfold resize_steps, resize, mbind, T_bind, M_bind.
    apply bindT_result; [same_result|intros ? ?].
    apply bindT_result; [apply trim_steps_result|done].
  - unfold clear_steps, clear, mbind, T_bind, M_bind.
    do 2 (apply bindT_result; [same_result|intros ? ?]).
    apply bindT_result; [apply trim_steps_result|intros ? ?]. same_result.
Qed.

(** ** The states inside a call *)

Lemma traced_ret {A} (I : cache → Prop) (a : A) s (Q : A → cache → Prop) :
  Q a s → traced I (retT a) s Q.
Proof. intros HQ. split; [constructor|done]. Qed.

Lemma traced_step {A} (I : cache → Prop) (c : M A) s (Q : A → cache → Prop) :
  (∀ a s', c s = Ok (a, s') → I s' ∧ Q a s') → traced I (step c) s Q.
Proof.
  intros Hc. unfold traced, step. destruct (c s) as [[a s']|u|]; simpl; [|done..].
  destruct (Hc a s' eq_refl). split; [by repeat constructor|done].
Qed.

Lemma traced_bind {A B} (I : cache → Prop) (c : T A) (k : A → T B) s
    (Q : A → cache → Prop) (R : B → cache → Prop) :
  traced I c s Q → (∀ a s', Q a s' → traced I (k a) s' R) →
  traced I (bindT c k) s R.
Proof.
  intros [Htr HQ] Hk. unfold traced, bindT.
  destruct (c s) as [tr [[a s']|u|]]; simpl in *; [|done..].
  destruct (Hk a s' HQ). split; [by apply Forall_app|done].
Qed.

Lemma traced_step_bind {A B} (I : cache → Prop) (c : M A) (k : A → T B) s
    (R : B → cache → Prop) :
  (∀ a s', c s = Ok (a, s') → I s' ∧ traced I (k a) s' R) →
  traced I (bindT (step c) k) s R.
Proof.
  intros Hc. apply traced_bind with (Q := λ a s', I s' ∧ traced I (k a) s' R).
  - apply traced_step. intros a s' Hs. destruct (Hc a s' Hs). done.
  - by intros a s' [_ ?].
Qed.

Lemma traced_mono {A} (I I' : cache → Prop) (c : T A) s (Q Q' : A → cache → Prop) :
  traced I c s Q → (∀ t, I t → I' t) → (∀ a s', Q a s' → Q' a s') →
  traced I' c s Q'.
Proof.
  intros [Htr HQ] HI HQ'. split; [by eapply Forall_impl|].
  destruct (c s).2 as [[a s']|u|]; [by apply HQ'|done..].
Qed.

(** What one container operation that has completed did. *)
Ltac prim H :=
  unfold map_find, deref, size, capacity, list_size, list_back, list_pop_back,
    list_erase, list_push_front, fire_delete, make_value, map_remove,
    map_store, map_index, setCreateCallback, setDeleteCallback, read, write
    in H;
  repeat match type of H with
         | context [match ?x with _ => _ end] => destruct x eqn:?
         end;
  simplify_eq/=.

Ltac tstart := unfold mbind, mret, T_bind, T_ret.
Ltac tstep H :=
  first [ apply traced_step_bind | apply traced_step ];
  intros ? ? H; prim H.

Lemma no_larger_refl s : no_larger s s.
Proof. by split. Qed.

Lemma lookup_size_pos (m : gmap Key (Value * node)) k e :
  m !! k = Some e → 0 < base.size m.
Proof.
  intros Hk. destruct (decide (base.size m = 0)) as [Hz|]; [|lia].
  apply map_size_empty_iff in Hz. by rewrite Hz, lookup_empty in Hk.
Qed.

(** Settle a bound on the size of a map after insertions and deletions. *)
Ltac sizes :=
  unfold no_larger, within in *; simpl in *;
  rewrite ?map_size_insert, ?map_size_delete, ?lookup_insert_eq; simpl;
  repeat match goal with
         | H : ?m !! ?k = _ |- context [?m !! ?k] => rewrite H
         | H : ?m !! ?k = Some _ |- _ =>
             lazymatch goal with
             | _ : 0 < base.size m |- _ => fail
             | _ => pose proof (lookup_size_pos _ _ _ H)
             end
         end;
  simpl; try lia.

Lemma map_erase_steps_traced pos s :
  traced (no_larger s) (map_erase_steps pos) s
    (λ _ s', m_capacity s' = m_capacity s ∧ m_list s' = m_list s
             ∧ ∃ k, pos = Some k ∧ is_Some (m_map s !! k)
                    ∧ m_map s' = delete k (m_map s)).
Proof.
  unfold map_erase_steps. tstart.
  tstep Hc. split; [apply no_larger_refl|].
  tstep Hc; (split; [sizes|]); tstep Hc; (split; [split; sizes|]);
    (split_and!; [done..|eauto]).
Qed.

Lemma erase_oldest_steps_traced s :
  traced (no_larger s) erase_oldest_steps s
    (λ _ t, m_capacity t = m_capacity s
            ∧ S (base.size (m_map t)) = base.size (m_map s)
            ∧ ∃ k, m_map t = delete k (m_map s)).
Proof.
  unfold erase_oldest_steps. tstart.
  tstep Hc. split; [apply no_larger_refl|].
  tstep Hc. split; [sizes|].
  tstep Hc; (split; [sizes|]).
  all: eapply traced_mono; [apply map_erase_steps_traced|by intros t [? ?]|].
  all: simpl; intros ? t (? & _ & k' & ? & [e He] & ->); simplify_eq.
  all: split_and!; [done|sizes|eauto].
Qed.

Lemma touch_iter_steps_traced iter s :
  traced (no_larger s) (touch_iter_steps iter) s (λ _ t, no_larger s t).
Proof.
  unfold touch_iter_steps. tstart.
  tstep Hc. split; [apply no_larger_refl|].
  tstep Hc. split; [split; sizes|].
  tstep Hc. split; [split; sizes|].
  tstep Hc. split; [split; sizes|].
  tstep Hc. split; split; sizes.
Qed.

Lemma touch_steps_traced k s :
  traced (no_larger s) (touch_steps k) s (λ _ t, no_larger s t).
Proof.
  unfold touch_steps. tstart.
  tstep Hc; (split; [apply no_larger_refl|]).
  - eapply traced_bind; [apply touch_iter_steps_traced|].
    intros ? t Ht. by apply traced_ret.
  - apply traced_ret, no_larger_refl.
Qed.

Lemma no_larger_trans s t (u : cache (Key:=Key) (Value:=Value)) :
  no_larger s t → no_larger t u → no_larger s u.
Proof. intros [? ?] [? ?]. split; [congruence|lia]. Qed.

(** A traced function run from a state no larger than [s]. *)
Lemma traced_from {A} s t (c : T A) :
  no_larger s t →
  traced (no_larger t) c t (λ _ u, no_larger t u) →
  traced (no_larger s) c t (λ _ u, no_larger s u).
Proof.
  intros Hst Hc. eapply traced_mono; [exact Hc|..];
    intros; by eapply no_larger_trans.
Qed.

Lemma assign_iter_steps_traced iter val s :
  traced (no_larger s) (assign_iter_steps iter val) s (λ _ t, no_larger s t).
Proof.
  unfold assign_iter_steps. tstart.
  tstep Hc. split; [apply no_larger_refl|].
  tstep Hc.
  all: match goal with |- no_larger ?s ?t ∧ _ =>
         assert (Hst : no_larger s t) by (split; sizes) end.
  all: split; [done|].
  all: eapply traced_bind; [by apply traced_from, touch_iter_steps_traced|].
  all: intros ? t Ht; simpl.
  all: tstep Hc; (split; [done|]).
  all: tstep Hc; destruct Ht; split; split; sizes.
Qed.

Lemma assign_steps_traced k val s :
  traced (no_larger s) (assign_steps k val) s (λ _ t, no_larger s t).
Proof.
  unfold assign_steps. tstart.
  tstep Hc; (split; [apply no_larger_refl|]).
  - eapply traced_bind; [apply assign_iter_steps_traced|].
    intros ? t Ht. by apply traced_ret.
  - apply traced_ret, no_larger_refl.
Qed.

Lemma erase_steps_traced k s :
  traced (no_larger s) (erase_steps k) s (λ _ t, no_larger s t).
Proof.
  unfold erase_steps. tstart.
  tstep Hc; (split; [apply no_larger_refl|]).
  - tstep Hc. split; [apply no_larger_refl|].
    tstep Hc.
    match goal with |- no_larger ?s ?t ∧ _ =>
      assert (Hst : no_larger s t) by (split; sizes) end.
    split; [done|].
    eapply traced_bind.
    + eapply traced_mono; [apply map_erase_steps_traced| |].
      * intros t Ht. by eapply no_larger_trans.
      * intros ? t Ht. exact Ht.
    + simpl. intros ? t (Hcap & _ & k' & ? & [e He] & Hm). apply traced_ret.
      split; [done|]. rewrite Hm. sizes.
  - apply traced_ret, no_larger_refl.
Qed.

Lemma make_space_steps_traced s :
  within s →
  traced (no_larger s) make_space_steps s
    (λ _ t, m_capacity t = m_capacity s
            ∧ base.size (m_map t) < m_capacity s
            ∧ (∀ k, m_map s !! k = None → m_map t !! k = None)).
Proof.
  intros Hs. unfold make_space_steps. tstart.
  tstep Hc. split; [apply no_larger_refl|].
  tstep Hc. split; [apply no_larger_refl|].
  case_decide as Hfull.
  - eapply traced_mono; [apply erase_oldest_steps_traced|done|]. simpl.
    intros ? t (Hcap & Hsz & k0 & Hm). split_and!; [done|lia|].
    intros k Hk. rewrite Hm. by apply lookup_delete_None; right.
  - apply traced_ret. unfold within in Hs. split_and!; [done|lia|done].
Qed.

Lemma no_larger_within s t : within s → no_larger s t → within t.
Proof. unfold within. intros ? [-> ?]. lia. Qed.

Lemma insert_steps_traced k v s :
  within s →
  traced within (insert_steps k v) s
    (λ _ t, within t ∧ is_Some (m_map t !! k)).
Proof.
  intros Hs. unfold insert_steps. tstart.
  tstep Hc; (split; [done|]).
  { apply traced_ret. eauto. }
  eapply traced_bind.
  { eapply traced_mono; [by apply make_space_steps_traced| |].
    - intros t Ht. by eapply no_larger_within.
    - intros ? t Ht. exact Ht. }
  simpl. intros ? t (Hcap & Hsz & Hk).
  match goal with Hk0 : m_map _ !! k = None |- _ => specialize (Hk k Hk0) end.
  tstep Hc. split; [unfold within; simpl; lia|].
  tstep Hc; try congruence. split; [sizes|].
  tstep Hc. split; [sizes|].
  apply traced_ret. split; [sizes|].
  simpl. rewrite lookup_insert_eq. eauto.
Qed.

Lemma insert_or_assign_steps_traced k v s :
  within s →
  traced within
    (insert_or_assign_steps k v) s
    (λ _ t, within t).
Proof.
  intros Hs. unfold insert_or_assign_steps. tstart.
  tstep Hc; (split; [done|]); tstep Hc'; try congruence; (split; [done|]).
  - eapply traced_mono; [apply assign_iter_steps_traced|..];
      intros; by eapply no_larger_within.
  - eapply traced_bind; [by apply insert_steps_traced|].
    intros ? t [Ht _]. by apply traced_ret.
Qed.

Lemma get_steps_traced k s :
  within s →
  traced within (get_steps k) s
    (λ _ t, within t).
Proof.
  intros Hs. unfold get_steps. tstart.
  tstep Hc; (split; [done|]).
  - eapply traced_bind.
    { eapply traced_mono; [apply touch_steps_traced|..].
      - intros t Ht. by eapply no_larger_within.
      - intros ? t Ht. exact Ht. }
    simpl. intros ? t Ht%(no_larger_within _ _ Hs).
    tstep Hc. split; [done|]. by apply traced_ret.
  - apply traced_step_bind. intros v t Hv.
    assert (Ht : within t).
    { unfold make_value in Hv.
      match type of Hv with context [m_create_callback ?x] =>
        destruct (m_create_callback x) end; injection Hv as _ <-; exact Hs. }
    split; [done|].
    eapply traced_bind; [by apply insert_steps_traced|].
    simpl. intros ? u [Hu [e He]].
    tstep Hc; (split; [done|]); by apply traced_ret.
Qed.

(** [trim] on a cache that fits its capacity only looks. *)
Lemma trim_steps_fits s :
  within s → traced (λ t, t = s) trim_steps s (λ _ t, t = s).
Proof.
  intros Hs. unfold trim_steps. tstart.
  tstep Hc. split; [done|]. tstep Hc. split; [done|].
  case_decide; [by apply traced_ret|done].
Qed.

Lemma call_steps_within o s :
  within s → ¬ overshoots o s →
  Forall within (during o s).
Proof.
  intros Hs Hno. unfold during.
  cut (traced within (call_steps o) s
         (λ _ _, True)); [by intros [? _]|].
  assert (Hsmall : ∀ A (c : T A) B (f : A → B),
    traced (no_larger s) c s (λ _ t, no_larger s t) →
    traced within (bindT c (λ a, retT (f a))) s (λ _ _, True)).
  { intros A c B f Hc. eapply traced_bind.
    - eapply traced_mono; [exact Hc|..].
      + intros t Ht. by eapply no_larger_within.
      + intros ? t Ht. exact Ht.
    - intros. by apply traced_ret. }
  destruct o as [k v|k v|k v|k|k|k|k|k|n| |f|f]; unfold call_steps; tstart;
    simpl in Hno.
  - eapply traced_bind; [by apply insert_steps_traced|].
    intros. by apply traced_ret.
  - eapply traced_bind; [by apply insert_or_assign_steps_traced|].
    intros. by apply traced_ret.
  - apply Hsmall, assign_steps_traced.
  - eapply traced_bind; [by apply get_steps_traced|]. intros. by apply traced_ret.
  - apply Hsmall, touch_steps_traced.
  - apply Hsmall. unfold at_steps. tstart.
    tstep Hc; (split; [apply no_larger_refl|]).
    + tstep Hc. split; [apply no_larger_refl|]. apply traced_ret, no_larger_refl.
    + apply traced_ret, no_larger_refl.
  - apply Hsmall. unfold contains_steps. tstart.
    tstep Hc; (split; [apply no_larger_refl|]); apply traced_ret, no_larger_refl.
  - apply Hsmall, erase_steps_traced.
  - unfold resize_steps. tstart.
    assert (Hn : within (set_capacity n s)) by (unfold within in *; simpl; lia).
    apply traced_bind with (Q := λ _ _, True); [|intros; by apply traced_ret].
    tstep Hc. split; [done|].
    apply traced_bind with (Q := λ _ _, True); [|intros; by apply traced_ret].
    eapply traced_mono; [by apply trim_steps_fits|by intros ? ->|done].
  - unfold clear_steps. tstart.
    assert (Hn : within (set_capacity 0 s)) by (unfold within in *; simpl; lia).
    apply traced_bind with (Q := λ _ _, True); [|intros; by apply traced_ret].
    tstep Hc. split; [done|]. tstep Hc. split; [done|].
    eapply traced_bind.
    { eapply traced_mono; [by apply trim_steps_fits|by intros ? ->|].
      intros ? t Ht. exact Ht. }
    simpl. intros ? t ->. tstep Hc. unfold within in *. simpl. lia.
  - apply traced_bind with (Q := λ _ _, True); [|intros; by apply traced_ret].
    tstep Hc. done.
  - apply traced_bind with (Q := λ _ _, True); [|intros; by apply traced_ret].
    tstep Hc. done.
Qed.

Lemma bindT_trace {A B} (c : T A) (k : A → T B) s :
  (bindT c k s).1 =
  (c s).1 ++ match (c s).2 with Ok (a, s') => (k a s').1 | _ => [] end.
Proof.
  unfold bindT. destruct (c s) as [tr [[a s']|u|]]; simpl; by rewrite ?app_nil_r.
Qed.

Lemma call_steps_overshoot o s :
  overshoots o s → Exists exceeded (during o s).
Proof.
  intros Ho. unfold during.
  destruct o as [k v|k v|k v|k|k|k|k|k|n| |f|f]; try done; simpl in Ho;
    unfold call_steps; tstart; rewrite bindT_trace; apply Exists_app; left.
  - unfold resize_steps. tstart. rewrite bindT_trace. simpl. by left.
  - unfold clear_steps. tstart. rewrite !bindT_trace. simpl. right. by left.
Qed.

Lemma exceeded_not_within t : exceeded t ↔ ¬ within t.
Proof. unfold exceeded, within. lia. Qed.

Lemma overshoots_or_not o s : overshoots o s ∨ ¬ overshoots o s.
Proof.
  destruct o; simpl; try (by right; intros []).
  - destruct (decide (newSize < base.size (m_map s))); by (left + right).
  - destruct (decide (0 < base.size (m_map s))); by (left + right).
Qed.

Lemma exceeded_inside o s :
  within s → Exists exceeded (during o s) ↔ overshoots o s.
Proof.
  intros Hs. split; [|apply call_steps_overshoot].
  intros Hex. destruct (overshoots_or_not o s) as [|Hno]; [done|].
  pose proof (call_steps_within o s Hs Hno) as Hall.
  apply Exists_exists in Hex as (t & Hin & Ht).
  rewrite Forall_forall in Hall. apply exceeded_not_within in Ht.
  destruct Ht. by apply Hall.
Qed.

(** C1: after every completed script of calls of the ten operations on a
    fresh cache of any capacity, [size()] is at most [capacity()], and a
    script is cut short only by the read of the back of the empty list,
    which takes a capacity of zero; the loop of [trim] never runs out of
    fuel.  Inside the next call, whichever it is, the capacity is exceeded
    exactly when the call is [resize(n)] with [n] below [size()] or [clear()]
    on a cache with entries, which write [m_capacity] before they trim; it
    is never exceeded inside an insertion, which evicts before it stores.
    The traced call returns what the call returns. *)
Theorem capacity_invariant (c : nat) cr dl (ops : list op) :
  match run ops (LRU_Cache c cr dl) with
  | Ok (rs, s) =>
      (∃ n cap, size s = Ok (n, s) ∧ capacity s = Ok (cap, s) ∧ 0 ≤ n ≤ cap)
      ∧ ∀ o, (call_steps o s).2 = call o s
             ∧ (Exists exceeded (during o s) ↔ overshoots o s)
  | Undefined u =>
      u = list_back_on_empty ∧ (c = 0 ∨ ¬ Forall keeps_room ops)
  | OutOfFuel => False
  end.
Proof.
  pose proof (run_spec ops _ (inv_LRU_Cache c cr dl)) as Hr.
  destruct (run ops _) as [[rs s]|u|]; [|done..].
  destruct Hr as [_ Hsz]. split.
  - exists (base.size (m_map s)), (m_capacity s). split_and!; [done|done|lia|done].
  - intros o. split; [apply call_steps_result|by apply exceeded_inside].
Qed.

(** ** What a client observes of [get] and [insert] *)

Lemma get_present_obs s k v :
  wf s → contents s !! k = Some v →
  ∃ s', get k s = Ok (v, s') ∧ wf s' ∧ same_setup s s'
    ∧ recency s' = k :: filter (λ k', k' ≠ k) (recency s)
    ∧ contents s' = contents s ∧ calls s' = calls s.
Proof.
  intros Hwf Hv. rewrite contents_lookup in Hv.
  destruct (m_map s !! k) as [[v' n]|] eqn:Hk; simplify_eq/=.
  destruct (wf_node _ _ _ _ Hwf Hk) as [Hnd Hn].
  eexists. split; [by apply get_present|].
  destruct (touched_obs s k v n v (calls s) Hwf Hk) as (? & ? & ? & Hc).
  split_and!; [done..| |done]. rewrite Hc. apply insert_id.
  by rewrite contents_lookup, Hk.
Qed.

Lemma insert_absent_obs s k v :
  wf s → contents s !! k = None → 0 < m_capacity s →
  ∃ s', insert k v s = Ok (true, s') ∧ wf s' ∧ same_setup s s'
    ∧ recency s' = k :: (if decide (length (recency s) = m_capacity s)
                         then removelast (recency s) else recency s)
    ∧ contents s' !! k = Some (Value_from_Key (Key_from_Value v))
    ∧ (∀ k', k' ≠ k → k' ∈ recency s' → contents s' !! k' = contents s !! k')
    ∧ calls s' = fired s (evicted_by_insert s).
Proof.
  intros Hwf Hk Hcap. rewrite contents_lookup in Hk.
  destruct (m_map s !! k) as [|] eqn:Hk'; [done|]. clear Hk.
  pose proof (wf_size _ Hwf) as Hsz. rewrite length_recency, <-Hsz.
  destruct (decide (base.size (m_map s) = m_capacity s)) as [Hfull|Hroom].
  - destruct (decide (m_list s = [])) as [Hnil|Hne].
    { rewrite Hnil in Hsz. simpl in Hsz. lia. }
    apply last_is_Some in Hne as [[n k0] Hx]. apply last_Some in Hx as [l0 Hl0].
    pose proof Hwf as Hl%wf_linked. rewrite Hl0 in Hl.
    destruct (linked_last _ _ _ _ _ Hl) as [v0 Hv0].
    assert (k ≠ k0) by congruence.
    assert (Hwf' : linked ((next_node s, k) :: l0)
                     (<[k := (Value_from_Key (Key_from_Value v), next_node s)]>
                        (delete k0 (m_map s))) (S (next_node s))).
    { apply linked_push; [by eapply linked_pop|]. by rewrite lookup_delete_ne. }
    eexists. split; [by eapply insert_full|].
    split_and!; [by apply wf_mk|done| | | |].
    + rewrite (recency_snoc _ _ _ _ Hl0), removelast_snoc. done.
    + rewrite contents_lookup. simpl. by rewrite lookup_insert_eq.
    + intros k' Hne Hin. apply recency_present in Hin as [e He]; [|by apply wf_mk].
      simpl in He. rewrite !contents_lookup. simpl.
      rewrite lookup_insert_ne in He |- * by done.
      destruct (decide (k' = k0)) as [->|Hne0]; [by rewrite lookup_delete_eq in He|].
      by rewrite lookup_delete_ne.
    + simpl. by erewrite evicted_full.
  - eexists. split; [by eapply insert_room|].
    split_and!; [|done|done| | |].
    + apply wf_mk. apply linked_push; [by apply wf_linked|done].
    + rewrite contents_lookup. simpl. by rewrite lookup_insert_eq.
    + intros k' Hne _. rewrite !contents_lookup. simpl. by rewrite lookup_insert_ne.
    + simpl. by rewrite evicted_room, fired_nil.
Qed.

(** Inserting fresh, pairwise distinct keys keeps the [capacity] most
    recent of them, newest first. *)
Lemma inserts_obs kvs : ∀ s,
  inv s → 0 < m_capacity s → NoDup kvs.*1 →
  (∀ k, k ∈ kvs.*1 → k ∉ recency s) →
  ∃ rs s', run (inserts kvs) s = Ok (rs, s') ∧ inv s' ∧ same_setup s s'
    ∧ Forall (λ r, r = RBool true) rs
    ∧ recency s' = take (m_capacity s) (reverse kvs.*1 ++ recency s).
Proof.
  induction kvs as [|[k v] kvs IH]; intros s [Hwf Hsz] Hcap Hnd Hfresh.
  - exists [], s. split_and!; [done|done|done|done|].
    simpl. rewrite take_ge; [done|]. rewrite length_recency, <-(wf_size _ Hwf). done.
  - simpl in Hnd. apply NoDup_cons in Hnd as [Hk Hnd].
    assert (Hk0 : contents s !! k = None).
    { rewrite contents_lookup. destruct (m_map s !! k) eqn:E; [|done].
      exfalso. apply (Hfresh k); [left|]. apply recency_present; eauto. }
    destruct (insert_absent_obs s k v Hwf Hk0 Hcap)
      as (s1 & Hi & Hwf1 & (Hc1 & Hcr1 & Hdl1) & Hr1 & _ & _ & _).
    rewrite recency_after_insert in Hr1
      by (done || by rewrite length_recency, <-(wf_size _ Hwf)).
    assert (Hinv1 : inv s1).
    { split; [done|]. rewrite (wf_size _ Hwf1), <-length_recency, Hr1, Hc1.
      rewrite length_take. lia. }
    destruct (IH s1 Hinv1) as (rs & s' & Hrun & Hinv' & (Hc' & Hcr' & Hdl') & Hrs & Hr').
    { lia. } { done. }
    { intros k' Hk' Hin. rewrite Hr1 in Hin. apply subseteq_take in Hin.
      apply elem_of_cons in Hin as [->|Hin]; [done|].
      apply (Hfresh k'); [by right|done]. }
    exists (RBool true :: rs), s'. unfold inserts. rewrite fmap_cons, run_cons. simpl.
    unfold_M. rewrite Hi. fold (inserts kvs). rewrite Hrun.
    split_and!; [done|done|split_and!; congruence|by constructor|].
    rewrite Hr', Hr1, Hc1, take_app_take, reverse_cons, <-app_assoc. done.
Qed.

(** C2: on a cache constructed with capacity 0, [insert] does not complete:
    [make_space] finds [size() == m_capacity] and [erase_oldest] reads
    [m_list.back()] of the empty list. *)
Theorem insert_capacity_zero cr dl k v :
  recency (LRU_Cache 0 cr dl) = []
  ∧ erase_oldest (LRU_Cache 0 cr dl) = Undefined list_back_on_empty
  ∧ make_space (LRU_Cache 0 cr dl) = Undefined list_back_on_empty
  ∧ insert k v (LRU_Cache 0 cr dl) = Undefined list_back_on_empty.
Proof. split_and!; reflexivity. Qed.

(** C3: for a capacity [c >= 1], inserting [c + 1] pairwise distinct keys
    into a fresh cache succeeds every time and evicts exactly the first
    key: it is absent afterwards, the other [c] keys are present, newest
    first. *)
Theorem lru_evicts_first_inserted (c : nat) cr dl k0 v0 (rest : list (Key * Value)) :
  1 ≤ c → NoDup (k0 :: rest.*1) → length rest = c →
  ∃ rs s,
    run (inserts ((k0, v0) :: rest)) (LRU_Cache c cr dl) = Ok (rs, s)
    ∧ Forall (λ r, r = RBool true) rs
    ∧ contains k0 s = Ok (false, s)
    ∧ (∀ k, k ∈ rest.*1 → contains k s = Ok (true, s))
    ∧ recency s = reverse rest.*1
    ∧ size s = Ok (c, s).
Proof.
  intros Hc Hnd Hlen.
  destruct (inserts_obs ((k0, v0) :: rest) (LRU_Cache c cr dl))
    as (rs & s & Hrun & [Hwf Hsz] & _ & Hrs & Hr).
  { apply inv_LRU_Cache. } { simpl. lia. } { done. }
  { intros k _. apply not_elem_of_nil. }
  assert (Hr' : recency s = reverse rest.*1).
  { rewrite Hr. simpl. rewrite app_nil_r, reverse_cons.
    rewrite take_app_length'; [done|]. by rewrite length_reverse, length_fmap. }
  apply NoDup_cons in Hnd as [Hk0 Hnd].
  exists rs, s. split_and!; [done|done| | |done|].
  - rewrite (contains_recency _ _ Hwf), Hr'.
    rewrite bool_decide_eq_false_2; [done|]. by rewrite elem_of_reverse.
  - intros k Hk. rewrite (contains_recency _ _ Hwf), Hr'.
    rewrite bool_decide_eq_true_2; [done|]. by rewrite elem_of_reverse.
  - unfold size, read. rewrite (wf_size _ Hwf), <-length_recency, Hr'.
    by rewrite length_reverse, length_fmap, Hlen.
Qed.

(** C4: [get] on a present key returns the stored value and moves the key
    to the front of the recency order, leaving the rest of the order and
    the stored values as they were; so with capacity 2, after inserting
    [A] then [B], [get(A)] followed by inserting a new key [C] evicts [B]
    and keeps [A]. *)
Theorem get_promotes :
  (∀ s k v, wf s → contents s !! k = Some v →
     ∃ s', get k s = Ok (v, s')
       ∧ recency s' = k :: filter (λ k', k' ≠ k) (recency s)
       ∧ contents s' = contents s)
  ∧ (∀ cr dl A B C vA vB vC, A ≠ B → C ≠ A → C ≠ B →
       ∃ s, run [Insert A vA; Insert B vB; Get A; Insert C vC] (LRU_Cache 2 cr dl)
            = Ok ([RBool true; RBool true;
                   RValue (Value_from_Key (Key_from_Value vA)); RBool true], s)
         ∧ contains B s = Ok (false, s)
         ∧ contains A s = Ok (true, s)
         ∧ contains C s = Ok (true, s)
         ∧ recency s = [C; A]).
Proof.
  split.
  { intros s k v Hwf Hk.
    destruct (get_present_obs s k v Hwf Hk) as (s' & ? & _ & _ & ? & ? & _). eauto. }
  intros cr dl A B C vA vB vC HAB HCA HCB.
  set (s0 := LRU_Cache 2 cr dl).
  destruct (insert_absent_obs s0 A vA) as (s1 & H1 & Hwf1 & (Hc1 & _) & Hr1 & Hv1 & _);
    [apply wf_LRU_Cache|done|simpl; lia|]. simpl in Hr1, Hc1.
  destruct (insert_absent_obs s1 B vB) as (s2 & H2 & Hwf2 & (Hc2 & _) & Hr2 & _ & Hv2 & _);
    [done| |lia|].
  { destruct (contents s1 !! B) eqn:E; [|done]. rewrite contents_lookup in E.
    assert (B ∈ recency s1) as Hin by (apply recency_present; [done|];
      destruct (m_map s1 !! B); [eauto|done]).
    rewrite Hr1 in Hin. set_solver. }
  rewrite Hr1, Hc1 in Hr2. simpl in Hr2.
  assert (HvA : contents s2 !! A = Some (Value_from_Key (Key_from_Value vA))).
  { rewrite Hv2, Hv1; [done|done|]. rewrite Hr2. set_solver. }
  destruct (get_present_obs s2 A _ Hwf2 HvA) as (s3 & H3 & Hwf3 & (Hc3 & _) & Hr3 & Hv3 & _).
  rewrite Hr2 in Hr3.
  rewrite filter_cons_True, filter_cons_False in Hr3 by (intros ?; congruence).
  change (recency s3 = [A; B]) in Hr3.
  destruct (insert_absent_obs s3 C vC) as (s4 & H4 & Hwf4 & (Hc4 & _) & Hr4 & _);
    [done| |lia|].
  { destruct (contents s3 !! C) eqn:E; [|done]. rewrite contents_lookup in E.
    assert (C ∈ recency s3) as Hin by (apply recency_present; [done|];
      destruct (m_map s3 !! C); [eauto|done]).
    rewrite Hr3 in Hin. set_solver. }
  rewrite Hr3, Hc3, Hc2, Hc1 in Hr4. simpl in Hr4.
  exists s4. split_and!; [|..|done].
  - run_step H1. run_step H2. run_step H3. run_step H4. done.
  - rewrite (contains_recency _ _ Hwf4), Hr4.
    rewrite bool_decide_eq_false_2; [done|]. set_solver.
  - rewrite (contains_recency _ _ Hwf4), Hr4.
    rewrite bool_decide_eq_true_2; [done|]. set_solver.
  - rewrite (contains_recency _ _ Hwf4), Hr4.
    rewrite bool_decide_eq_true_2; [done|]. set_solver.
Qed.

(** ** The delete callback over a script *)

Lemma run_deleted ops : ∀ s rs s',
  wf s → run ops s = Ok (rs, s') →
  length (deleted s') = length (deleted s) + removals ops s.
Proof.
  induction ops as [|o ops IH]; intros s rs s' Hwf Hrun.
  - assert (s' = s) as -> by (by inversion Hrun). simpl. lia.
  - rewrite run_cons in Hrun. simpl. pose proof (call_spec o s Hwf) as Hc.
    destruct (call o s) as [[r s1]| |]; [|done..].
    destruct Hc as (Hwf1 & _ & Hdel & _).
    destruct (run ops s1) as [[rs1 s2]| |] eqn:Hrun1; [|done..]. simplify_eq.
    rewrite (IH _ _ _ Hwf1 Hrun1), Hdel, length_app.
    destruct (m_delete_callback s); simpl; lia.
Qed.

(** While a deleter stays configured, the values deleted so far and the
    values still stored add up to the values that have entered. *)
Lemma run_conserves ops : ∀ s rs s',
  wf s → is_Some (m_delete_callback s) → Forall keeps_deleter ops →
  run ops s = Ok (rs, s') →
  is_Some (m_delete_callback s')
  ∧ length (deleted s') + base.size (m_map s')
    = length (deleted s) + base.size (m_map s) + entered ops s.
Proof.
  induction ops as [|o ops IH]; intros s rs s' Hwf Hdl Hops Hrun.
  - assert (s' = s) as -> by (by inversion Hrun). simpl. split; [done|lia].
  - rewrite run_cons in Hrun. simpl. pose proof (call_spec o s Hwf) as Hc.
    apply Forall_cons in Hops as [Ho Hops].
    destruct (call o s) as [[r s1]| |]; [|done..].
    destruct Hc as (Hwf1 & _ & Hdel & Hacc & _ & Hdl1).
    destruct (run ops s1) as [[rs1 s2]| |] eqn:Hrun1; [|done..]. simplify_eq.
    assert (Hdl1' : m_delete_callback s1 = m_delete_callback s) by (by destruct o).
    destruct (IH _ _ _ Hwf1 ltac:(by rewrite Hdl1') Hops Hrun1) as [Hdl' Hcount].
    split; [done|]. rewrite Hcount, Hdel, length_app.
    destruct Hdl as [f ->]. lia.
Qed.

(** C5: a configured [on_delete] is called on exactly the values that leave
    the cache with a call (overwritten, evicted, erased, cleared), once each
    and in the order they leave; the values leaving account for the change
    of [size()]; calls that only read or promote make no [on_delete] call;
    the destructor calls it once for every resident value; over a whole
    script the number of [on_delete] calls is the number of removals; and
    by the time the cache is destroyed there has been one call for every
    value that was stored at the start or has entered since. *)
Theorem on_delete_exactly_once :
  (∀ o s r s', wf s → call o s = Ok (r, s') →
     deleted s' = deleted s ++ match m_delete_callback s with
                               | Some _ => leaving o s
                               | None => []
                               end
     ∧ base.size (m_map s') + length (leaving o s)
       = base.size (m_map s) + entering o s)
  ∧ (∀ o s r s', wf s → call o s = Ok (r, s') → reads_only o s →
       deleted s' = deleted s)
  ∧ (∀ s, ∃ s', destroy s = Ok (tt, s')
       ∧ deleted s' = deleted s ++ match m_delete_callback s with
                                   | Some _ => resident s
                                   | None => []
                                   end
       ∧ length (resident s) = base.size (m_map s))
  ∧ (∀ ops s rs s', wf s → run ops s = Ok (rs, s') →
       length (deleted s') = length (deleted s) + removals ops s)
  ∧ (∀ ops s rs s' s'', wf s → is_Some (m_delete_callback s) →
       Forall keeps_deleter ops →
       run ops s = Ok (rs, s') → destroy s' = Ok (tt, s'') →
       length (deleted s'')
       = length (deleted s) + base.size (m_map s) + entered ops s).
Proof.
  split_and!.
  - intros o s r s' Hwf Hc. pose proof (call_spec o s Hwf) as Hs.
    rewrite Hc in Hs. by destruct Hs as (_ & _ & ? & ? & _).
  - intros o s r s' Hwf Hc Hro. pose proof (call_spec o s Hwf) as Hs.
    rewrite Hc in Hs. destruct Hs as (_ & _ & -> & _).
    assert (leaving o s = []) as ->.
    { destruct o; try done. simpl in *. by destruct Hro as [? ->]. }
    destruct (m_delete_callback s); by rewrite app_nil_r.
  - intros s. eexists. split; [apply destroy_eq|]. split.
    + apply deleted_set_calls.
    + unfold resident. by rewrite length_fmap, length_map_to_list.
  - apply run_deleted.
  - intros ops s rs s' s'' Hwf Hdl Hops Hrun Hdes.
    destruct (run_conserves ops s rs s' Hwf Hdl Hops Hrun) as [[f Hf] Hcount].
    rewrite destroy_eq in Hdes. simplify_eq.
    rewrite deleted_set_calls, Hf, length_app.
    unfold resident. rewrite length_fmap, length_map_to_list. lia.
Qed.

(** C6: on a cache constructed with capacity 0, [get] of a missing key
    does not return a value: the insertion it makes reads the back of the
    empty list, whether or not a creator is configured. *)
Theorem get_capacity_zero cr dl k :
  get k (LRU_Cache 0 cr dl) = Undefined list_back_on_empty.
Proof. destruct cr; reflexivity. Qed.

(** With a positive capacity [get] of a missing key does return: the value
    made by the creator (or [Value()]), as stored by [insert], which is now
    the most recently used entry. *)
Lemma get_absent_obs s k :
  wf s → contents s !! k = None → 0 < m_capacity s →
  ∃ s', get k s = Ok (Value_from_Key (Key_from_Value (made s k)), s')
    ∧ wf s' ∧ same_setup s s'
    ∧ recency s' = k :: (if decide (length (recency s) = m_capacity s)
                         then removelast (recency s) else recency s)
    ∧ contents s' !! k = Some (Value_from_Key (Key_from_Value (made s k)))
    ∧ deleted s' = deleted s ++ match m_delete_callback s with
                                | Some _ => evicted_by_insert s
                                | None => []
                                end.
Proof.
  intros Hwf Hk Hcap.
  assert (Hk' : m_map s !! k = None).
  { rewrite contents_lookup in Hk. by destruct (m_map s !! k). }
  rewrite (get_absent _ _ Hk'). set (s1 := set_calls _ s).
  destruct (insert_absent_obs s1 k (made s k)) as (s' & -> & Hwf' & Hset & Hr & Hv & _ & Hcalls);
    [by apply wf_set_calls|done|done|].
  exists s'. rewrite contents_lookup in Hv. unfold bind, map_index, ret.
  destruct (m_map s' !! k) as [[w n]|] eqn:E; simplify_eq/=.
  split_and!; [done..|by rewrite contents_lookup, E|].
  unfold deleted at 1. rewrite Hcalls. unfold fired. rewrite omap_app.
  fold (deleted s1). unfold s1. rewrite deleted_made. f_equal. simpl.
  destruct (m_delete_callback s); [|done].
  change (evicted_by_insert (set_calls _ s)) with (evicted_by_insert s).
  induction (evicted_by_insert s) as [|v vs IH]; [done|]. simpl. by f_equal.
Qed.

(** C8: a missing key is reported by the return value and nothing else
    happens: [erase] and [assign] (and [touch]) of an absent key return
    [false] and [at] returns nothing, with the cache exactly as before;
    [insert] of a present key returns [false] with the cache exactly as
    before. *)
Theorem absence_is_signalled s k v :
  (contents s !! k = None →
     erase k s = Ok (false, s) ∧ assign k v s = Ok (false, s)
     ∧ touch k s = Ok (false, s) ∧ at_ k s = Ok (None, s))
  ∧ (is_Some (contents s !! k) → insert k v s = Ok (false, s)).
Proof.
  rewrite contents_lookup. split.
  - intros Hk. assert (m_map s !! k = None) as Hk' by (by destruct (m_map s !! k)).
    split_and!; [by apply erase_absent|by apply assign_absent|by apply touch_absent|].
    by rewrite at_eq, contents_lookup, Hk'.
  - intros [e He]%fmap_is_Some. by eapply insert_present.
Qed.

(** ** The initializer-list constructor *)

Lemma load_spec il : ∀ s,
  wf s → m_delete_callback s = None →
  length (m_list s) + length il ≤ m_capacity s →
  ∃ s', load il s = Ok (tt, s') ∧ wf s' ∧ same_setup s s' ∧ calls s' = calls s
    ∧ (∀ k, k ∈ recency s' ↔ k ∈ il.*1 ∨ k ∈ recency s)
    ∧ (NoDup il.*1 → (∀ k, k ∈ il.*1 → k ∉ recency s) →
       recency s' = reverse il.*1 ++ recency s).
Proof.
  induction il as [|[k v] il IH]; intros s Hwf Hdl Hlen.
  - exists s. split_and!; [done..|set_solver|done].
  - simpl in Hlen. simpl load. unfold_M.
    destruct (m_map s !! k) as [[v0 n]|] eqn:Hk.
    + destruct (wf_node _ _ _ _ Hwf Hk) as [Hnd Hn].
      rewrite (insert_or_assign_present _ _ _ _ _ Hnd Hn Hk).
      set (s1 := mk_cache _ _ _ _ _ _ _).
      destruct (touched_obs s k v0 n v (fired s [v0]) Hwf Hk) as (Hwf1 & _ & Hr1 & _).
      fold s1 in Hwf1, Hr1.
      destruct (IH s1 Hwf1 Hdl) as (s' & -> & Hwf' & Hset & Hcalls & Hkeys & _).
      { rewrite <-(wf_size _ Hwf1). simpl.
        rewrite map_size_insert_Some, (wf_size _ Hwf) by eauto. lia. }
      exists s'. split_and!; [done|done|done| | |].
      * rewrite Hcalls. simpl. by apply fired_no_deleter.
      * intros k'. rewrite Hkeys, Hr1. simpl.
        rewrite !elem_of_cons, list_elem_of_filter.
        assert (k ∈ recency s) by (apply recency_present; eauto).
        destruct (decide (k' = k)) as [->|]; naive_solver.
      * intros _ Hfresh. exfalso. apply (Hfresh k); [left|].
        apply recency_present; eauto.
    + rewrite (insert_or_assign_absent _ _ _ Hk).
      destruct (insert_absent_obs s k v)
        as (s1 & -> & Hwf1 & (Hc1 & Hcr1 & Hdl1) & Hr1 & _ & _ & Hcalls1);
        [done|by rewrite contents_lookup, Hk|lia|].
      rewrite decide_False in Hr1 by (rewrite length_recency; lia).
      destruct (IH s1 Hwf1) as (s' & -> & Hwf' & (Hc' & Hcr' & Hdl') & Hcalls & Hkeys & Hord).
      { congruence. }
      { rewrite <-length_recency, Hr1, Hc1. simpl. rewrite length_recency. lia. }
      exists s'. split_and!; [done|done|split_and!; congruence| | |].
      * rewrite Hcalls, Hcalls1. by apply fired_no_deleter.
      * intros k'. rewrite Hkeys, Hr1. simpl. rewrite !elem_of_cons. naive_solver.
      * simpl. intros [Hnk Hnd]%NoDup_cons Hfresh.
        rewrite Hord, Hr1; [by rewrite reverse_cons, <-app_assoc|done|].
        intros k' Hk' Hin. rewrite Hr1 in Hin.
        apply elem_of_cons in Hin as [->|Hin]; [done|].
        apply (Hfresh k'); [by right|done].
Qed.

(** C9: the initializer-list constructor completes for every list, with
    the capacity set to the length of the list (duplicates counted) and no
    callback configured or called; every key of the list is present
    afterwards, and when the keys are pairwise distinct all of them are
    stored, the last-listed most recently used. *)
Theorem initializer_list_constructor (il : list (Key * Value)) :
  ∃ s, LRU_Cache_il il = Ok (tt, s)
    ∧ capacity s = Ok (length il, s)
    ∧ m_create_callback s = None ∧ m_delete_callback s = None ∧ calls s = []
    ∧ (∀ k, k ∈ il.*1 → contains k s = Ok (true, s))
    ∧ (NoDup il.*1 → recency s = reverse il.*1 ∧ size s = Ok (length il, s)).
Proof.
  destruct (load_spec il (LRU_Cache (length il) None None))
    as (s & Hs & Hwf & (Hc & Hcr & Hdl) & Hcalls & Hkeys & Hord);
    [apply wf_LRU_Cache|done|simpl; lia|].
  exists s. split_and!; [done| |done|done|done| |].
  - unfold capacity, read. by rewrite Hc.
  - intros k Hk. rewrite (contains_recency _ _ Hwf).
    rewrite bool_decide_eq_true_2; [done|]. apply Hkeys. by left.
  - intros Hnd. assert (Hr : recency s = reverse il.*1).
    { rewrite Hord; [by rewrite app_nil_r|done|]. intros k _. apply not_elem_of_nil. }
    split; [done|]. unfold size, read.
    by rewrite (wf_size _ Hwf), <-length_recency, Hr, length_reverse, length_fmap.
Qed.

(** ** The calls against the list-and-map model *)

Abbreviation model_step :=
  (model_step Key_from_Value Value_from_Key Value_default).
Abbreviation model_ret :=
  (model_ret Key_from_Value Value_from_Key Value_default).

Ltac unfold_M_in H :=
  unfold mbind, mret, M_bind, M_ret, bind, ret, read, write in H.

Lemma insert_absent_model s k v b s' :
  wf s → m_map s !! k = None → insert k v s = Ok (b, s') →
  b = true
  ∧ recency s'
    = (model_insert (m_capacity s) k (Value_from_Key (Key_from_Value v))
         (recency s) (contents s)).1
  ∧ contents s'
    = (model_insert (m_capacity s) k (Value_from_Key (Key_from_Value v))
         (recency s) (contents s)).2
  ∧ created s' = created s
  ∧ m_create_callback s' = m_create_callback s.
Proof.
  intros Hwf Hk Hins. pose proof (wf_size _ Hwf) as Hsz.
  unfold model_insert. rewrite length_recency, <-Hsz.
  destruct (decide (base.size (m_map s) = m_capacity s)) as [Hfull|Hroom].
  - destruct (decide (m_list s = [])) as [Hnil|Hne].
    { by rewrite insert_full_empty in Hins. }
    apply last_is_Some in Hne as [[n k0] Hx]. apply last_Some in Hx as [l0 Hl0].
    pose proof Hwf as Hl%wf_linked. rewrite Hl0 in Hl.
    destruct (linked_last _ _ _ _ _ Hl) as [v0 Hv0].
    rewrite (insert_full _ _ _ _ _ _ _ _ Hk Hfull Hl0 Hv0) in Hins.
    simplify_eq. rewrite (recency_snoc _ _ _ _ Hl0), removelast_snoc, last_snoc.
    split_and!; [done|done| |apply created_mk|done].
    unfold contents. simpl. by rewrite fmap_insert, fmap_delete.
  - rewrite insert_room in Hins by done. simplify_eq.
    split_and!; [done|done| |done|done].
    unfold contents. simpl. by rewrite fmap_insert.
Qed.

(** Every completed call acts on recency order and stored values as the
    list-and-map model says, returns what the model returns, and calls
    [on_create] only for a [get] that misses. *)
Lemma call_model o s rv s' :
  wf s → call o s = Ok (rv, s') →
  recency s' = (model_step o s).1
  ∧ contents s' = (model_step o s).2
  ∧ rv = model_ret o s
  ∧ created s' = created s ++ model_created o s.
Proof.
  intros Hwf Hcall.
  destruct o as [k v|k v|k v|k|k|k|k|k|n| |f|f]; unfold call in Hcall;
    unfold_M_in Hcall; unfold model_step, model_ret, model_created.
  all: try (destruct (m_map s !! k) as [[v0 n0]|] eqn:Hk;
            [destruct (wf_node _ _ _ _ Hwf Hk) as [Hnd Hn];
             destruct (touched_obs s k v0 n0 v0 (calls s) Hwf Hk)
               as (_ & _ & Hr0 & Hc0)|]).
  all: try rewrite !contents_lookup, Hk; simpl.
  - (* insert, present *)
    rewrite (insert_present _ _ _ _ Hk) in Hcall. simplify_eq.
    by rewrite app_nil_r.
  - (* insert, absent *)
    destruct (insert k v s) as [[b s1]| |] eqn:Hins; [|done..]. simplify_eq.
    destruct (insert_absent_model _ _ _ _ _ Hwf Hk Hins) as (-> & ? & ? & -> & _).
    by rewrite app_nil_r.
  - (* insert_or_assign, present *)
    rewrite (insert_or_assign_present _ _ _ _ _ Hnd Hn Hk) in Hcall. simplify_eq.
    destruct (touched_obs s k v0 n0 v (fired s [v0]) Hwf Hk) as (_ & _ & ? & ?).
    split_and!; [done|done|done|]. by rewrite created_mk, app_nil_r.
  - (* insert_or_assign, absent *)
    rewrite (insert_or_assign_absent _ _ _ Hk) in Hcall.
    destruct (insert k v s) as [[b s1]| |] eqn:Hins; [|done..]. simplify_eq.
    destruct (insert_absent_model _ _ _ _ _ Hwf Hk Hins) as (-> & ? & ? & -> & _).
    by rewrite app_nil_r.
  - (* assign, present *)
    rewrite (assign_present _ _ _ _ _ Hnd Hn Hk) in Hcall. simplify_eq.
    destruct (touched_obs s k v0 n0 v (fired s [v0]) Hwf Hk) as (_ & _ & ? & ?).
    split_and!; [done|done|done|]. by rewrite created_mk, app_nil_r.
  - (* assign, absent *)
    rewrite (assign_absent _ _ _ Hk) in Hcall. simplify_eq. by rewrite app_nil_r.
  - (* get, present *)
    rewrite (get_present _ _ _ _ Hnd Hn Hk) in Hcall. simplify_eq.
    split_and!; [done| |done|by rewrite app_nil_r].
    rewrite Hc0. apply insert_id. by rewrite contents_lookup, Hk.
  - (* get, absent *)
    rewrite (get_absent _ _ Hk) in Hcall.
    set (s1 := set_calls _ s) in Hcall.
    destruct (insert k (made s k) s1) as [[b s2]| |] eqn:Hins; [|done..].
    destruct (insert_absent_model s1 _ _ _ _ ltac:(by apply wf_set_calls) Hk Hins)
      as (-> & Hr & Hc & Hcr & _).
    change (recency s1) with (recency s) in *.
    change (contents s1) with (contents s) in *.
    change (m_capacity s1) with (m_capacity s) in *.
    assert (Hv : contents s2 !! k
                 = Some (Value_from_Key (Key_from_Value (made s k)))).
    { rewrite Hc. unfold model_insert. case_decide; simpl; apply lookup_insert_eq. }
    rewrite contents_lookup in Hv.
    unfold bind, map_index, ret in Hcall.
    destruct (m_map s2 !! k) as [[w n]|] eqn:E; simplify_eq/=.
    split_and!; [done..|]. rewrite Hcr. unfold created, s1. simpl.
    rewrite omap_app. f_equal. by destruct (m_create_callback s).
  - (* touch, present *)
    rewrite (touch_present _ _ _ _ Hnd Hn Hk) in Hcall. simplify_eq.
    split_and!; [done| |done|by rewrite app_nil_r].
    rewrite Hc0. apply insert_id. by rewrite contents_lookup, Hk.
  - (* touch, absent *)
    rewrite (touch_absent _ _ Hk) in Hcall. simplify_eq. by rewrite app_nil_r.
  - (* at, present *)
    rewrite at_eq in Hcall. simplify_eq. by rewrite contents_lookup, Hk, app_nil_r.
  - (* at, absent *)
    rewrite at_eq in Hcall. simplify_eq. by rewrite contents_lookup, Hk, app_nil_r.
  - (* contains, present *)
    rewrite contains_eq, Hk in Hcall. simplify_eq. by rewrite app_nil_r.
  - (* contains, absent *)
    rewrite contains_eq, Hk in Hcall. simplify_eq. by rewrite app_nil_r.
  - (* erase, present *)
    rewrite (erase_present _ _ _ _ Hnd Hn Hk) in Hcall. simplify_eq.
    split_and!; [| |done|by rewrite created_mk, app_nil_r].
    + unfold recency. simpl. eapply linked_filter_keys; [by apply wf_linked|done].
    + unfold contents. simpl. by rewrite fmap_delete.
  - (* erase, absent *)
    rewrite (erase_absent _ _ Hk) in Hcall. simplify_eq.
    split_and!; [|by rewrite delete_id by (by rewrite contents_lookup, Hk)|done|
                 by rewrite app_nil_r].
    symmetry. apply filter_all. intros k' Hk' ->.
    apply (recency_present _ _ Hwf) in Hk' as [e He]. congruence.
  - (* resize *)
    rewrite (resize_eq _ _ Hwf) in Hcall. simplify_eq.
    pose proof (wf_size _ Hwf) as Hsz. rewrite <-length_recency in Hsz.
    case_decide as Hfit.
    + rewrite take_ge, drop_ge by lia. by rewrite app_nil_r.
    + split_and!; [exact (recency_trimmed (set_capacity n s))|
                   exact (contents_trimmed (set_capacity n s))|done|].
      rewrite app_nil_r. exact (created_mk _ _ _ _ _ _ (set_capacity n s) _).
  - (* clear *)
    rewrite (clear_eq _ Hwf) in Hcall. simplify_eq.
    destruct (clear_obs s Hwf) as (_ & Hr & Hm).
    split_and!; [done|unfold contents; by rewrite Hm, fmap_empty|done|].
    rewrite app_nil_r.
    case_decide; [done|]. exact (created_mk _ _ _ _ _ _ (set_capacity 0 s) _).
  - (* setCreateCallback *)
    unfold setCreateCallback in Hcall. unfold_M_in Hcall. simplify_eq.
    by rewrite app_nil_r.
  - (* setDeleteCallback *)
    unfold setDeleteCallback in Hcall. unfold_M_in Hcall. simplify_eq.
    by rewrite app_nil_r.
Qed.

Lemma stores_new_or_not o s : stores_new o s ∨ ¬ stores_new o s.
Proof.
  destruct o; simpl; try (by right; intros []);
    destruct (contents s !! key); by (left + right).
Qed.

Lemma call_completes o s :
  wf s → ¬ stores_new o s → ∃ rv s', call o s = Ok (rv, s').
Proof.
  intros Hwf Hnew.
  destruct o as [k v|k v|k v|k|k|k|k|k|n| |f|f]; unfold call; unfold_M;
    simpl in Hnew.
  all: try (rewrite contents_lookup in Hnew).
  all: try (destruct (m_map s !! k) as [[v0 n0]|] eqn:Hk;
            [destruct (wf_node _ _ _ _ Hwf Hk) as [Hnd Hn]|]).
  all: try done.
  - rewrite (insert_present _ _ _ _ Hk). eauto.
  - rewrite (insert_or_assign_present _ _ _ _ _ Hnd Hn Hk). eauto.
  - rewrite (assign_present _ _ _ _ _ Hnd Hn Hk). eauto.
  - rewrite (assign_absent _ _ _ Hk). eauto.
  - rewrite (get_present _ _ _ _ Hnd Hn Hk). eauto.
  - rewrite (touch_present _ _ _ _ Hnd Hn Hk). eauto.
  - rewrite (touch_absent _ _ Hk). eauto.
  - rewrite at_eq. eauto.
  - rewrite at_eq. eauto.
  - rewrite contains_eq. eauto.
  - rewrite contains_eq. eauto.
  - rewrite (erase_present _ _ _ _ Hnd Hn Hk). eauto.
  - rewrite (erase_absent _ _ Hk). eauto.
  - rewrite (resize_eq _ _ Hwf). eauto.
  - rewrite (clear_eq _ Hwf). eauto.
  - unfold setCreateCallback. unfold_M. eauto.
  - unfold setDeleteCallback. unfold_M. eauto.
Qed.

(** A call by key on a well-formed cache either completes, and then
    recency order, stored values and return value are those of the
    list-and-map model, or it is a call that must store a new entry in an
    empty cache of capacity zero, which reads the back of the empty list. *)
Lemma by_key_refines_model o s :
  wf s →
  match call o s with
  | Ok (rv, s') =>
      wf s'
      ∧ recency s' = (model_step o s).1
      ∧ contents s' = (model_step o s).2
      ∧ rv = model_ret o s
  | Undefined u =>
      u = list_back_on_empty ∧ stores_new o s
      ∧ m_capacity s = 0 ∧ recency s = []
  | OutOfFuel => False
  end.
Proof.
  intros Hwf. pose proof (call_spec o s Hwf) as Hs.
  destruct (call o s) as [[rv s']|u|] eqn:Hcall; [| |done].
  - destruct (call_model _ _ _ _ Hwf Hcall) as (? & ? & ? & _).
    by destruct Hs as (? & _).
  - destruct Hs as (-> & Hcap & Hnil). split_and!; [done| |done|].
    + destruct (stores_new_or_not o s) as [|Hno]; [done|].
      destruct (call_completes o s Hwf Hno) as (? & ? & ?). congruence.
    + unfold recency. by rewrite Hnil.
Qed.

Lemma erase_oldest_model s :
  wf s →
  match erase_oldest s with
  | Ok (_, s') =>
      wf s' ∧ recency s' = removelast (recency s)
      ∧ contents s' = match last (recency s) with
                      | Some k => delete k (contents s)
                      | None => contents s
                      end
      ∧ recency s ≠ []
  | Undefined u => u = list_back_on_empty ∧ recency s = []
  | OutOfFuel => False
  end.
Proof.
  intros Hwf. destruct (recency s) as [|k0 r0] eqn:Hr using rev_ind.
  - apply fmap_nil_inv in Hr. by rewrite (erase_oldest_empty _ Hr).
  - clear IHr0. rename r0 into r, k0 into k.
    apply snoc_keys in Hr as (l0 & n & Hl0 & <-).
    pose proof Hwf as Hl%wf_linked. rewrite Hl0 in Hl.
    destruct (linked_last _ _ _ _ _ Hl) as [v Hv].
    rewrite (erase_oldest_eq _ _ _ _ _ _ Hl0 Hv).
    rewrite removelast_snoc, last_snoc. split_and!.
    + apply wf_mk. by eapply linked_pop.
    + done.
    + unfold contents. simpl. by rewrite fmap_delete.
    + by destruct (l0.*2).
Qed.

Lemma touch_iter_model s iter :
  wf s →
  match touch_iter iter s with
  | Ok (_, s') =>
      ∃ k, iter = Some k ∧ is_Some (contents s !! k) ∧ wf s'
        ∧ recency s' = promote k (recency s) ∧ contents s' = contents s
  | Undefined u =>
      match iter with
      | None => u = map_deref_end
      | Some k => u = map_deref_invalid ∧ contents s !! k = None
      end
  | OutOfFuel => False
  end.
Proof.
  intros Hwf. destruct iter as [k|]; [|done].
  destruct (m_map s !! k) as [[v n]|] eqn:Hk.
  - destruct (wf_node _ _ _ _ Hwf Hk) as [Hnd Hn].
    rewrite (touch_iter_eq _ _ _ _ Hnd Hn Hk).
    destruct (touched_obs s k v n v (calls s) Hwf Hk) as (? & _ & ? & Hc).
    exists k. rewrite contents_lookup, Hk. split_and!; [done|by eexists|done..|].
    rewrite Hc. apply insert_id. by rewrite contents_lookup, Hk.
  - unfold touch_iter, deref. unfold_M. rewrite Hk.
    by rewrite contents_lookup, Hk.
Qed.

Lemma assign_iter_model s iter val :
  wf s →
  match assign_iter iter val s with
  | Ok (_, s') =>
      ∃ k, iter = Some k ∧ is_Some (contents s !! k) ∧ wf s'
        ∧ recency s' = promote k (recency s)
        ∧ contents s' = <[k := val]> (contents s)
  | Undefined u =>
      match iter with
      | None => u = map_deref_end
      | Some k => u = map_deref_invalid ∧ contents s !! k = None
      end
  | OutOfFuel => False
  end.
Proof.
  intros Hwf. destruct iter as [k|]; [|done].
  destruct (m_map s !! k) as [[v n]|] eqn:Hk.
  - destruct (wf_node _ _ _ _ Hwf Hk) as [Hnd Hn].
    rewrite (assign_iter_eq _ _ _ _ _ Hnd Hn Hk).
    destruct (touched_obs s k v n val (fired s [v]) Hwf Hk) as (? & _ & ? & Hc).
    exists k. rewrite contents_lookup, Hk. split_and!; [done|by eexists|done..].
  - unfold assign_iter, deref. unfold_M. rewrite Hk.
    by rewrite contents_lookup, Hk.
Qed.

Lemma call_zero_undefined o s :
  wf s → stores_new o s → m_capacity s = 0 → recency s = [] →
  call o s
  = Undefined list_back_on_empty.
Proof.
  intros Hwf Hnew Hcap Hnil%fmap_nil_inv.
  assert (Hsz : base.size (m_map s) = m_capacity s).
  { rewrite (wf_size _ Hwf), Hnil, Hcap. done. }
  destruct o as [k v|k v|k v|k|k|k|k|k|n| |f|f]; try done; simpl in Hnew;
    rewrite contents_lookup in Hnew;
    destruct (m_map s !! k) as [|] eqn:Hk; try done; unfold call; unfold_M.
  - by rewrite insert_full_empty.
  - rewrite insert_or_assign_absent by done. by rewrite insert_full_empty.
  - rewrite get_absent by done. by rewrite insert_full_empty.
Qed.





(** ** Storing, reading back and removing *)

(** X11: What is stored is what [at] reads next, and the key is then the most
    recently used: [insert] (and [insert_or_assign] of a missing key) stores
    the value converted to [Key] and back, [assign] (and [insert_or_assign]
    of a present key) stores the value as given. *)
Theorem stored_value_read_back s k v :
  wf s →
  (contents s !! k = None → 0 < m_capacity s →
     ∃ s', insert k v s = Ok (true, s')
       ∧ insert_or_assign k v s = Ok (tt, s')
       ∧ at_ k s' = Ok (Some (Value_from_Key (Key_from_Value v)), s')
       ∧ head (recency s') = Some k)
  ∧ (is_Some (contents s !! k) →
       ∃ s', assign k v s = Ok (true, s')
         ∧ insert_or_assign k v s = Ok (tt, s')
         ∧ at_ k s' = Ok (Some v, s')
         ∧ head (recency s') = Some k).
Proof.
  intros Hwf. split.
  - intros Hk Hcap.
    destruct (insert_absent_obs s k v Hwf Hk Hcap)
      as (s' & Hins & _ & _ & Hr & Hv & _).
    exists s'. split_and!; [done| | |by rewrite Hr].
    + rewrite insert_or_assign_absent, Hins; [done|].
      rewrite contents_lookup in Hk. by destruct (m_map s !! k).
    + by rewrite at_eq, Hv.
  - intros [v0 Hv0]. rewrite contents_lookup in Hv0.
    destruct (m_map s !! k) as [[v1 n]|] eqn:Hk; simplify_eq/=.
    destruct (wf_node _ _ _ _ Hwf Hk) as [Hnd Hn].
    destruct (touched_obs s k v0 n v (fired s [v0]) Hwf Hk) as (_ & _ & Hr & Hc).
    eexists. split; [by apply assign_present|].
    split; [by apply insert_or_assign_present|].
    split; [by rewrite at_eq, Hc, lookup_insert_eq|by rewrite Hr].
Qed.

(** X12: With room for one more entry, inserting a missing key and erasing it
    again restores the recency list and the map exactly; capacity and
    callbacks are untouched and [on_delete] is offered the stored value. *)
Theorem insert_then_erase_restores s k v :
  wf s → contents s !! k = None → base.size (m_map s) < m_capacity s →
  ∃ s1 s2, insert k v s = Ok (true, s1) ∧ erase k s1 = Ok (true, s2)
    ∧ m_list s2 = m_list s ∧ m_map s2 = m_map s
    ∧ same_setup s s2
    ∧ deleted s2 = deleted s ++ match m_delete_callback s with
                                | Some _ => [Value_from_Key (Key_from_Value v)]
                                | None => []
                                end.
Proof.
  intros Hwf Hk Hroom. rewrite contents_lookup in Hk.
  destruct (m_map s !! k) as [|] eqn:Hk'; [done|]. clear Hk.
  pose proof Hwf as Hl%wf_linked.
  pose proof (linked_push _ _ _ k (Value_from_Key (Key_from_Value v)) Hl Hk')
    as Hl1.
  eexists _, _. split; [apply insert_room; [done|lia]|].
  split.
  { eapply erase_present; simpl; [by destruct Hl1|left|apply lookup_insert_eq]. }
  simpl. split_and!; [| |done|].
  - rewrite filter_cons_False by (simpl; by intros []).
    apply filter_all. intros [n' k'] Hin. simpl.
    destruct Hl as (_ & _ & Hnx). apply Hnx in Hin. lia.
  - by apply delete_insert_id.
  - unfold deleted, fired. simpl. rewrite omap_app. f_equal.
    by destruct (m_delete_callback s).
Qed.

(** X13: Capacity zero: in every state the public calls can reach with capacity
    0 the cache is empty, and [insert], [insert_or_assign] and [get] of any
    key read the back of the empty list; [resize(0)] leads to such a state
    from anywhere. *)
Theorem zero_capacity_rejects_every_store s k v :
  (inv s → m_capacity s = 0 →
     recency s = []
     ∧ insert k v s = Undefined list_back_on_empty
     ∧ insert_or_assign k v s = Undefined list_back_on_empty
     ∧ get k s = Undefined list_back_on_empty)
  ∧ (wf s → ∃ s', resize 0 s = Ok (tt, s') ∧ inv s' ∧ m_capacity s' = 0).
Proof.
  split.
  - intros [Hwf Hsz] Hcap.
    assert (Hm : base.size (m_map s) = 0) by lia.
    assert (Hnil : m_list s = []).
    { rewrite (wf_size _ Hwf) in Hm. by destruct (m_list s). }
    assert (Hk : m_map s !! k = None).
    { apply map_size_empty_inv in Hm. by rewrite Hm, lookup_empty. }
    assert (Hins : ∀ w tr,
      insert k w (set_calls tr s) = Undefined list_back_on_empty).
    { intros w tr. apply insert_full_empty; simpl; [done|lia|done]. }
    split_and!.
    + unfold recency. by rewrite Hnil.
    + apply insert_full_empty; [done|lia|done].
    + rewrite insert_or_assign_absent by done.
      by rewrite insert_full_empty by (done || lia).
    + rewrite get_absent by done. by rewrite Hins.
  - intros Hwf. eexists. split; [by apply resize_eq|].
    case_decide as Hfit.
    + split; [split; [by apply wf_set_capacity|simpl; lia]|done].
    + split; [|done]. split; [by apply wf_trimmed, wf_set_capacity|].
      rewrite size_trimmed by (by apply wf_set_capacity). simpl. lia.
Qed.

(** X14: A script that leaves the delete callback alone, run on a cache that
    has none, makes no [on_delete] call whatever it removes. *)
Theorem no_deleter_no_calls ops : ∀ s rs s',
  wf s → m_delete_callback s = None → Forall keeps_deleter ops →
  run ops s = Ok (rs, s') →
  deleted s' = deleted s ∧ m_delete_callback s' = None.
Proof.
  induction ops as [|o ops IH]; intros s rs s' Hwf Hdl Hops Hrun.
  - assert (s' = s) as -> by (by inversion Hrun). done.
  - rewrite run_cons in Hrun. pose proof (call_spec o s Hwf) as Hc.
    apply Forall_cons in Hops as [Ho Hops].
    destruct (call o s) as [[r s1]| |]; [|done..].
    destruct Hc as (Hwf1 & _ & Hdel & _ & _ & Hdl1).
    destruct (run ops s1) as [[rs1 s2]| |] eqn:Hrun1; [|done..]. simplify_eq.
    assert (Hdl1' : m_delete_callback s1 = None) by (by destruct o; rewrite Hdl1).
    destruct (IH _ _ _ Hwf1 Hdl1' Hops Hrun1) as [-> ->].
    by rewrite Hdel, Hdl, app_nil_r.
Qed.

(** X15: A creator set with [setCreateCallback] is the one the next [get] of a
    missing key calls: the value it makes is stored (through [insert]) and
    returned, and the call is recorded once. *)
Theorem set_create_callback_takes_effect s f k :
  wf s → contents s !! k = None → 0 < m_capacity s →
  ∃ s1 s2, setCreateCallback (Some f) s = Ok (tt, s1)
    ∧ get k s1 = Ok (Value_from_Key (Key_from_Value (f k)), s2)
    ∧ at_ k s2 = Ok (Some (Value_from_Key (Key_from_Value (f k))), s2)
    ∧ head (recency s2) = Some k
    ∧ created s2 = created s ++ [k].
Proof.
  intros Hwf Hk Hcap. eexists (set_create (Some f) s).
  destruct (get_absent_obs (set_create (Some f) s) k)
    as (s2 & Hget & Hwf2 & _ & Hr & Hv & _);
    [by apply wf_linked; apply wf_linked in Hwf|done|done|].
  exists s2. split_and!; [done|exact Hget|by rewrite at_eq, Hv|by rewrite Hr|].
  assert (Hcall : call (Get k) (set_create (Some f) s)
                  = Ok (RValue (Value_from_Key (Key_from_Value (f k))), s2)).
  { unfold call. unfold_M. by rewrite Hget. }
  apply call_model in Hcall as (_ & _ & _ & ->);
    [|by apply wf_linked; apply wf_linked in Hwf].
  unfold model_created. change (contents (set_create (Some f) s)) with (contents s).
  by rewrite Hk.
Qed.


(** X17: Inserting any number of missing, pairwise distinct keys into a cache
    of positive capacity succeeds every time and leaves the capacity's
    worth of most recent keys, newest first, before the older ones. *)
Theorem inserts_keep_most_recent kvs s :
  inv s → 0 < m_capacity s → NoDup kvs.*1 →
  (∀ k, k ∈ kvs.*1 → k ∉ recency s) →
  ∃ rs s', run (inserts kvs) s = Ok (rs, s') ∧ inv s'
    ∧ Forall (λ r, r = RBool true) rs
    ∧ recency s' = take (m_capacity s) (reverse kvs.*1 ++ recency s)
    ∧ m_capacity s' = m_capacity s.
Proof.
  intros Hinv Hcap Hnd Hfresh.
  destruct (inserts_obs kvs s Hinv Hcap Hnd Hfresh)
    as (rs & s' & ? & ? & (? & _) & ? & ?).
  by exists rs, s'.
Qed.

End Calls.

(** * The instance of the demonstration program: [LRU_Cache<int, int>]

    Keys and values are both [int], so the two conversions are the identity
    and [Value()] is 0. *)

Open Scope Z_scope.

(** What [main] does: capacity 10, keys 0..10 inserted in order. *)
Lemma lru_evicts_first_inserted_witness :
  ∃ rs s,
    run id id 0
      (inserts ((0, 0) :: [(1, 1); (2, 2); (3, 3); (4, 4); (5, 5); (6, 6);
                           (7, 7); (8, 8); (9, 9); (10, 10)]))
      (LRU_Cache 10 None None) = Ok (rs, s)
    ∧ Forall (λ r, r = RBool true) rs
    ∧ contains 0 s = Ok (false, s)
    ∧ (∀ k, k ∈ [1; 2; 3; 4; 5; 6; 7; 8; 9; 10] → contains k s = Ok (true, s))
    ∧ recency s = [10; 9; 8; 7; 6; 5; 4; 3; 2; 1]
    ∧ size s = Ok (10%nat, s).
Proof.
  apply (lru_evicts_first_inserted id id 0 10 None None 0 0
           [(1, 1); (2, 2); (3, 3); (4, 4); (5, 5); (6, 6);
            (7, 7); (8, 8); (9, 9); (10, 10)]).
  - lia.
  - apply (bool_decide_unpack _). vm_compute. exact I.
  - reflexivity.
Defined.

(** The cache of capacity 2 after [insert(1, 10)] and [insert(2, 20)]. *)
Abbreviation two_entries :=
  (mk_cache [(2%nat, 2); (1%nat, 1)]
            {[ 1 := (10, 1%nat); 2 := (20, 2%nat) ]}
            2%nat None None 3%nat []).

(** The same with a delete callback configured. *)
Abbreviation two_entries_deleter :=
  (mk_cache [(2%nat, 2); (1%nat, 1)]
            {[ 1 := (10, 1%nat); 2 := (20, 2%nat) ]}
            2%nat None (Some (λ _ : Z, tt)) 3%nat []).

Lemma get_promotes_witness :
  (∃ s', get id id 0 1 two_entries = Ok (10, s')
     ∧ recency s' = 1 :: filter (λ k', k' ≠ 1) (recency two_entries)
     ∧ contents s' = contents two_entries)
  ∧ (∃ s, run id id 0 [Insert 1 10; Insert 2 20; Get 1; Insert 3 30]
            (LRU_Cache 2 None None)
          = Ok ([RBool true; RBool true; RValue 10; RBool true], s)
       ∧ contains 2 s = Ok (false, s)
       ∧ contains 1 s = Ok (true, s)
       ∧ contains 3 s = Ok (true, s)
       ∧ recency s = [3; 1]).
Proof.
  split.
  - apply (proj1 (get_promotes id id 0) two_entries 1 10).
    + apply (bool_decide_unpack _). vm_compute. exact I.
    + vm_compute. reflexivity.
  - apply (proj2 (get_promotes id id 0) None None 1 2 3 10 20 30); lia.
Defined.

Abbreviation scripted :=
  [Insert 1 10; Insert 2 20; Insert 3 30; Assign 2 21; Get 3; At 2; Erase 3;
   Clear].

Abbreviation stored_then_destroyed :=
  [Insert 1 10; Insert 2 20; Insert 3 30; Assign 2 21; Erase 3].

Abbreviation empty_deleter := (LRU_Cache (Key:=Z) 2 None (Some (λ _ : Z, tt))).

Lemma on_delete_exactly_once_witness :
  (∃ r s', call id id 0 (Assign 2 21) two_entries_deleter = Ok (r, s')
     ∧ deleted s' = [20]
     ∧ (base.size (m_map s') + 1 = 2 + 1)%nat)
  ∧ (∃ r s', call id id 0 (Get 1) two_entries_deleter = Ok (r, s')
       ∧ deleted s' = deleted two_entries_deleter)
  ∧ (∃ rs s',
       run id id 0 scripted (LRU_Cache 2 None (Some (λ _ : Z, tt))) = Ok (rs, s')
       ∧ length (deleted s')
         = (length (deleted (LRU_Cache (Key:=Z) 2 None (Some (λ _ : Z, tt))))
            + removals id id 0%Z scripted (LRU_Cache 2 None (Some (λ _ : Z, tt))))%nat
       ∧ deleted s' = [10; 20; 30; 21])
  ∧ (∃ rs s' s'',
       run id id 0 stored_then_destroyed empty_deleter = Ok (rs, s')
       ∧ destroy s' = Ok (tt, s'')
       ∧ length (deleted s'')
         = (length (deleted empty_deleter) + base.size (m_map empty_deleter)
            + entered id id 0%Z stored_then_destroyed empty_deleter)%nat
       ∧ deleted s'' = [10; 20; 30; 21]).
Proof.
  split_and!.
  - eexists _, _. split; [vm_compute; reflexivity|].
    edestruct (proj1 (on_delete_exactly_once id id 0) (Assign 2 21) two_entries_deleter)
      as [Hdel Hsize].
    + apply (bool_decide_unpack _). vm_compute. exact I.
    + vm_compute. reflexivity.
    + vm_compute in Hdel, Hsize. vm_compute. split; assumption.
  - eexists _, _. split; [vm_compute; reflexivity|].
    eapply (proj1 (proj2 (on_delete_exactly_once id id 0)) (Get 1) two_entries_deleter).
    + apply (bool_decide_unpack _). vm_compute. exact I.
    + vm_compute. reflexivity.
    + eexists. vm_compute. reflexivity.
  - eexists _, _. split; [vm_compute; reflexivity|]. split.
    + eapply (proj1 (proj2 (proj2 (proj2 (on_delete_exactly_once id id 0))))
                scripted).
      * apply (bool_decide_unpack _). vm_compute. exact I.
      * vm_compute. reflexivity.
    + vm_compute. reflexivity.
  - eexists _, _, _. split; [vm_compute; reflexivity|].
    split; [vm_compute; reflexivity|]. split; [|vm_compute; reflexivity].
    eapply (proj2 (proj2 (proj2 (proj2 (on_delete_exactly_once id id 0))))).
    + apply (bool_decide_unpack _). vm_compute. exact I.
    + eexists. reflexivity.
    + repeat constructor.
    + vm_compute. reflexivity.
    + vm_compute. reflexivity.
Defined.

Lemma absence_is_signalled_witness :
  (erase 5 two_entries = Ok (false, two_entries)
   ∧ assign 5 50 two_entries = Ok (false, two_entries)
   ∧ touch 5 two_entries = Ok (false, two_entries)
   ∧ at_ 5 two_entries = Ok (None, two_entries))
  ∧ insert id id 0 1 11 two_entries = Ok (false, two_entries).
Proof.
  split.
  - apply (proj1 (absence_is_signalled id id 0 two_entries 5 50)).
    vm_compute. reflexivity.
  - apply (proj2 (absence_is_signalled id id 0 two_entries 1 11)).
    eexists. vm_compute. reflexivity.
Defined.

Lemma initializer_list_constructor_witness :
  ∃ s, LRU_Cache_il id id 0 [(1, 10); (2, 20); (3, 30)] = Ok (tt, s)
    ∧ capacity s = Ok (3%nat, s)
    ∧ recency s = [3; 2; 1]
    ∧ size s = Ok (3%nat, s).
Proof.
  destruct (initializer_list_constructor id id 0 [(1, 10); (2, 20); (3, 30)])
    as (s & Hs & Hcap & _ & _ & _ & _ & Hdistinct).
  exists s. split; [exact Hs|]. split; [exact Hcap|].
  apply Hdistinct. apply (bool_decide_unpack _). vm_compute. exact I.
Defined.

Lemma touch_idempotent_witness :
  (∃ s1 s2, touch 1 two_entries = Ok (true, s1) ∧ touch 1 s1 = Ok (true, s2)
     ∧ observable s2 = observable s1
     ∧ (head (recency two_entries) = Some 1 → observable s1 = observable two_entries))
  ∧ (∃ s1, touch 2 two_entries = Ok (true, s1)
       ∧ observable s1 = observable two_entries).
Proof.
  split.
  - apply (touch_idempotent two_entries 1).
    + apply (bool_decide_unpack _). vm_compute. exact I.
    + eexists. vm_compute. reflexivity.
  - destruct (touch_idempotent two_entries 2) as (s1 & s2 & H1 & _ & _ & Hmru).
    + apply (bool_decide_unpack _). vm_compute. exact I.
    + eexists. vm_compute. reflexivity.
    + exists s1. split; [exact H1|]. apply Hmru. reflexivity.
Defined.

(** ** The model run on the scenarios of the specification *)

(** [main]: eleven [insert_or_assign] calls into a cache of capacity 10,
    then [clear]. *)
Example main_program :
  ∃ rs s,
    run id id 0
      [InsertOrAssign 0 0; InsertOrAssign 1 1; InsertOrAssign 2 2;
       InsertOrAssign 3 3; InsertOrAssign 4 4; InsertOrAssign 5 5;
       InsertOrAssign 6 6; InsertOrAssign 7 7; InsertOrAssign 8 8;
       InsertOrAssign 9 9; InsertOrAssign 10 10; Contains 0; Contains 10;
       Clear]
      (LRU_Cache 10 None None) = Ok (rs, s)
    ∧ rs !! 11%nat = Some (RBool false)
    ∧ rs !! 12%nat = Some (RBool true)
    ∧ recency s = [] ∧ contents s = ∅ ∧ m_capacity s = 10%nat.
Proof. eexists _, _. split; [vm_compute; reflexivity|]. by vm_compute. Qed.

(** Get-or-create with [on_create = key -> key * 2] on an empty cache of
    capacity 1. *)
Example get_or_create :
  get id id 0 7 (LRU_Cache 1 (Some (λ k, k * 2)) None)
  = Ok (14, mk_cache [(1%nat, 7)] {[ 7 := (14, 1%nat) ]} 1%nat
              (Some (λ k, k * 2)) None 2%nat [create_call 7]).
Proof. reflexivity. Qed.

(** Resize down: five entries at capacity 5, then [resize(2)]. *)
Example resize_down :
  ∃ rs s,
    run id id 0
      [Insert 1 10; Insert 2 20; Insert 3 30; Insert 4 40; Insert 5 50;
       Resize 2]
      (LRU_Cache 5 None (Some (λ _ : Z, tt))) = Ok (rs, s)
    ∧ recency s = [5; 4] ∧ deleted s = [10; 20; 30] ∧ m_capacity s = 2%nat.
Proof. eexists _, _. split; [vm_compute; reflexivity|]. by vm_compute. Qed.

(** [insert] after [resize(0)] reads the back of the empty list as well. *)
Example insert_after_resize_zero :
  run id id 0 [Insert 1 10; Resize 0; Insert 2 20] (LRU_Cache 2 None None)
  = Undefined list_back_on_empty.
Proof. reflexivity. Qed.

(** ** The further properties on the same instance *)

(** A decidable hypothesis on a concrete cache, settled by evaluation. *)
Ltac by_evaluation := apply (bool_decide_unpack _); vm_compute; exact I.

Lemma resize_keeps_most_recent_witness :
  ∃ s', resize 1 two_entries_deleter = Ok (tt, s')
    ∧ recency s' = [2] ∧ m_capacity s' = 1%nat ∧ deleted s' = [10].
Proof.
  destruct (resize_keeps_most_recent 1 two_entries_deleter)
    as (s' & Hres & _ & Hr & _ & _ & Hcap & _ & _ & Hdel & _); [by_evaluation|].
  exists s'. split_and!; [exact Hres|exact Hr|exact Hcap|exact Hdel].
Defined.

Lemma clear_empties_witness :
  ∃ s', clear two_entries_deleter = Ok (tt, s')
    ∧ recency s' = [] ∧ contents s' = ∅ ∧ m_capacity s' = 2%nat
    ∧ deleted s' = [10; 20].
Proof.
  destruct (clear_empties two_entries_deleter)
    as (s' & Hclr & _ & Hr & Hc & _ & Hcap & _ & _ & Hdel); [by_evaluation|].
  exists s'. split_and!; [exact Hclr|exact Hr|exact Hc|exact Hcap|exact Hdel].
Defined.

Lemma erase_removes_witness :
  ∃ s', erase 1 two_entries_deleter = Ok (true, s')
    ∧ recency s' = [2] ∧ contains 1 s' = Ok (false, s') ∧ deleted s' = [10].
Proof.
  destruct (erase_removes two_entries_deleter 1 10)
    as (s' & Hers & _ & Hr & _ & Hc & _ & _ & Hdel);
    [by_evaluation|vm_compute; reflexivity|].
  exists s'. split_and!; [exact Hers|exact Hr|exact Hc|exact Hdel].
Defined.

Lemma erase_oldest_removes_last_witness :
  (∃ v s', contents two_entries !! 1 = Some v
     ∧ erase_oldest two_entries = Ok (tt, s') ∧ recency s' = [2])
  ∧ erase_oldest (LRU_Cache (Key:=Z) (Value:=Z) 3 None None)
    = Undefined list_back_on_empty.
Proof.
  split.
  - destruct (proj1 (erase_oldest_removes_last two_entries) [2] 1)
      as (v & s' & Hv & Hers & _ & Hr & _); [by_evaluation|reflexivity|].
    exists v, s'. split_and!; [exact Hv|exact Hers|exact Hr].
  - apply (proj2 (erase_oldest_removes_last (LRU_Cache 3 None None))).
    reflexivity.
Defined.

(** [two_entries] with the capacity lowered to 1, as [resize] leaves it
    for [trim]. *)
Abbreviation two_entries_over := (set_capacity 1 two_entries).

Lemma trim_evicts_down_witness :
  trim two_entries = Ok (false, two_entries)
  ∧ (∃ s', trim two_entries_over = Ok (true, s') ∧ recency s' = [2]).
Proof.
  split.
  - apply (proj1 (trim_evicts_down two_entries)); [by_evaluation|].
    vm_compute. lia.
  - destruct (proj1 (trim_evicts_down two_entries_over)) as [_ Hover];
      [by_evaluation|].
    destruct Hover as (s' & Htrim & _ & Hr & _); [vm_compute; lia|].
    exists s'. split; [exact Htrim|exact Hr].
Defined.

Lemma range_visits_each_entry_once_witness :
  (range two_entries).*1 ≡ₚ [2; 1] ∧ length (range two_entries) = 2%nat.
Proof.
  destruct (range_visits_each_entry_once two_entries)
    as (Hperm & _ & Hlen & _); [by_evaluation|].
  split; [exact Hperm|exact Hlen].
Defined.




(** An empty cache of capacity 2 whose creator doubles the key. *)
Abbreviation doubling :=
  (LRU_Cache (Key:=Z) (Value:=Z) 2 (Some (λ k, k * 2)) None).


Lemma stored_value_read_back_witness :
  (∃ s', insert id id 0 3 30 two_entries = Ok (true, s')
     ∧ insert_or_assign id id 0 3 30 two_entries = Ok (tt, s')
     ∧ at_ 3 s' = Ok (Some 30, s')
     ∧ head (recency s') = Some 3)
  ∧ (∃ s', assign 1 11 two_entries = Ok (true, s')
       ∧ insert_or_assign id id 0 1 11 two_entries = Ok (tt, s')
       ∧ at_ 1 s' = Ok (Some 11, s')
       ∧ head (recency s') = Some 1).
Proof.
  split.
  - apply (proj1 (stored_value_read_back id id 0 two_entries 3 30
                    ltac:(by_evaluation))).
    + vm_compute. reflexivity.
    + vm_compute. lia.
  - apply (proj2 (stored_value_read_back id id 0 two_entries 1 11
                    ltac:(by_evaluation))).
    eexists. vm_compute. reflexivity.
Defined.

Lemma insert_then_erase_restores_witness :
  ∃ s1 s2, insert id id 0 1 10 doubling = Ok (true, s1)
    ∧ erase 1 s1 = Ok (true, s2)
    ∧ m_list s2 = m_list doubling ∧ m_map s2 = m_map doubling.
Proof.
  destruct (insert_then_erase_restores id id 0 doubling 1 10)
    as (s1 & s2 & Hins & Hers & Hl & Hm & _);
    [by_evaluation|vm_compute; reflexivity|vm_compute; lia|].
  exists s1, s2. split_and!; [exact Hins|exact Hers|exact Hl|exact Hm].
Defined.

(** A cache resized to zero after one insertion. *)
Abbreviation resized_to_zero :=
  (mk_cache (Key:=Z) (Value:=Z) [] ∅ 0%nat None None 2%nat []).

Lemma zero_capacity_rejects_every_store_witness :
  (insert id id 0 5 50 resized_to_zero = Undefined list_back_on_empty
   ∧ insert_or_assign id id 0 5 50 resized_to_zero = Undefined list_back_on_empty
   ∧ get id id 0 5 resized_to_zero = Undefined list_back_on_empty)
  ∧ (∃ s', resize 0 two_entries = Ok (tt, s') ∧ m_capacity s' = 0%nat).
Proof.
  split.
  - destruct (proj1 (zero_capacity_rejects_every_store id id 0 resized_to_zero 5 50))
      as (_ & H1 & H2 & H3).
    + split; [by_evaluation|vm_compute; lia].
    + reflexivity.
    + split_and!; [exact H1|exact H2|exact H3].
  - destruct (proj2 (zero_capacity_rejects_every_store id id 0 two_entries 5 50))
      as (s' & Hres & _ & Hcap); [by_evaluation|].
    exists s'. split; [exact Hres|exact Hcap].
Defined.

Lemma no_deleter_no_calls_witness :
  ∃ rs s',
    run id id 0 [Insert 1 10; Insert 2 20; Insert 3 30; Assign 2 21; Erase 3;
                 Clear]
      (LRU_Cache 2 None None) = Ok (rs, s')
    ∧ deleted s' = deleted (LRU_Cache (Key:=Z) (Value:=Z) 2 None None)
    ∧ m_delete_callback s' = None.
Proof.
  eexists _, _. split; [vm_compute; reflexivity|].
  eapply (no_deleter_no_calls id id 0
            [Insert 1 10; Insert 2 20; Insert 3 30; Assign 2 21; Erase 3; Clear]
            (LRU_Cache 2 None None)).
  - by_evaluation.
  - reflexivity.
  - repeat constructor.
  - vm_compute. reflexivity.
Defined.

Lemma set_create_callback_takes_effect_witness :
  ∃ s1 s2,
    setCreateCallback (Some (λ k, k * 2)) (LRU_Cache (Key:=Z) (Value:=Z) 2 None None)
    = Ok (tt, s1)
    ∧ get id id 0 7 s1 = Ok (14, s2)
    ∧ at_ 7 s2 = Ok (Some 14, s2)
    ∧ head (recency s2) = Some 7
    ∧ created s2 = [7].
Proof.
  destruct (set_create_callback_takes_effect id id 0
              (LRU_Cache (Key:=Z) (Value:=Z) 2 None None) (λ k, k * 2) 7)
    as (s1 & s2 & H1 & H2 & H3 & H4 & H5);
    [by_evaluation|vm_compute; reflexivity|vm_compute; lia|].
  exists s1, s2. split_and!; [exact H1|exact H2|exact H3|exact H4|exact H5].
Defined.


Lemma inserts_keep_most_recent_witness :
  ∃ rs s', run id id 0 (inserts [(3, 30); (4, 40)]) two_entries = Ok (rs, s')
    ∧ recency s' = [4; 3].
Proof.
  destruct (inserts_keep_most_recent id id 0 [(3, 30); (4, 40)] two_entries)
    as (rs & s' & Hrun & _ & _ & Hr & _).
  - split; [by_evaluation|vm_compute; lia].
  - vm_compute. lia.
  - by_evaluation.
  - apply Forall_forall. by_evaluation.
  - exists rs, s'. split; [exact Hrun|exact Hr].
Defined.

(** The capacity bound as the specification words it fails: [resize(1)] on
    a cache of two entries lowers [m_capacity] to 1 while both entries are
    still stored, and [resize] is no insertion. *)
Lemma capacity_exceeded_inside_resize :
  ∃ rs s,
    run id id 0 [Insert 1 10; Insert 2 20] (LRU_Cache 2 None None) = Ok (rs, s)
    ∧ ¬ exceeded_only_inside_insertion id id 0 (Resize 1) s.
Proof.
  exists [RBool true; RBool true], two_entries.
  split; [vm_compute; reflexivity|].
  intros Hclaim.
  apply (Hclaim (set_capacity 1 two_entries)).
  - vm_compute. left.
  - vm_compute. lia.
Qed.

Lemma capacity_invariant_witness :
  ∃ rs s,
    run id id 0 [Insert 1 10; Insert 2 20] (LRU_Cache 2 None None) = Ok (rs, s)
    ∧ size s = Ok (2%nat, s)
    ∧ Exists exceeded (during id id 0 (Resize 1) s)
    ∧ ¬ Exists exceeded (during id id 0 (Insert 3 30) s).
Proof.
  exists [RBool true; RBool true], two_entries.
  assert (Hrun : run id id 0 [Insert 1 10; Insert 2 20] (LRU_Cache 2 None None)
                 = Ok ([RBool true; RBool true], two_entries))
    by (vm_compute; reflexivity).
  pose proof (capacity_invariant id id 0 2 None None [Insert 1 10; Insert 2 20])
    as Hinv.
  rewrite Hrun in Hinv. destruct Hinv as [_ Hin].
  split_and!; [exact Hrun|reflexivity| |].
  - apply (proj2 (Hin (Resize 1%nat))). vm_compute. lia.
  - intros Hex. apply (proj1 (proj2 (Hin (Insert 3 30))) Hex).
Defined.
